(** * Vigenere cipher: a shallow embedding of [vigenere.c]

    The program reads a message, a mode and a key from the command line,
    derives a keystream aligned with the alphabetic characters of the
    message, and shifts every letter of the message by the matching
    keystream letter.

    Modelling choices.
    - A [char] is a [Z] holding its value, for ASCII text its code 0..127.
      All arithmetic of the program is done in [int] on such values and
      never leaves a few hundred, so no wrap-around occurs; what is stored
      back into a [char] lies between 40 and 122 ([stored_value_range]).
      C's truncating [%] is [Z.rem].
    - A C string is the list of the codes before its terminator; reading
      it at its length gives the terminator 0 ([char_at]).
    - A heap buffer from [malloc] is a list of cells, [None] for a cell
      that was never written; allocation is taken to succeed. Reading
      such a cell, reading or writing past the end, and dividing by zero
      are undefined behaviour: they end the run with [Undefined].
    - The loop counters are [int]s in the source and [nat]s here: an
      argument string handed to a process is far shorter than [INT_MAX]. *)

From Stdlib Require Import ZArith Lia String Ascii.
From stdpp Require Import base option list.

Local Open Scope Z_scope.

(** ** Constants *)

Definition CHAR_SPACE : Z := 26.

(** ['A'] *)
Definition ASCII_HIGHER_OFFSET : Z := 65.

(** ['A' ^ 0x20], that is ['a'] *)
Definition ASCII_LOWER_OFFSET : Z := Z.lxor ASCII_HIGHER_OFFSET 32.

Definition EXIT_SUCCESS : Z := 0.
Definition EXIT_FAILURE : Z := 1.

Inductive modes_t := Encrypt | Decrypt.

Inductive docs_t := Help | Usage.

(** The integral value of an enumerator, and the conversion of an [int]
    that is 0 or 1 to the enumeration. *)
Definition int_of_mode (m : modes_t) : Z :=
  match m with Encrypt => 0 | Decrypt => 1 end.

Definition mode_of_int (z : Z) : modes_t :=
  if z =? 0 then Encrypt else Decrypt.

(** ** <ctype.h> in the "C" locale (the program never sets another) *)

Definition isupper (c : Z) : bool := (65 <=? c) && (c <=? 90).
Definition islower (c : Z) : bool := (97 <=? c) && (c <=? 122).
Definition isalpha (c : Z) : bool := isupper c || islower c.
Definition isdigit (c : Z) : bool := (48 <=? c) && (c <=? 57).
Definition toupper (c : Z) : Z := if islower c then c - 32 else c.

(** ** Strings *)

(** The codes of a literal. *)
Definition codes (s : string) : list Z :=
  (fun a => Z.of_nat (nat_of_ascii a)) <$> list_ascii_of_string s.

(** [s[i]]: inside the string its character, at its end the terminator. *)
Definition char_at (s : list Z) (i : nat) : Z := default 0 (s !! i).

(** <string.h> *)
Fixpoint strlen (s : list Z) : nat :=
  match s with
  | [] => O
  | c :: s' => if c =? 0 then O else S (strlen s')
  end.

Fixpoint strncmp (s1 s2 : list Z) (n : nat) : Z :=
  match n with
  | O => 0
  | S n' =>
      let c1 := char_at s1 0 in
      let c2 := char_at s2 0 in
      if c1 =? c2
      then (if c1 =? 0 then 0 else strncmp (tail s1) (tail s2) n')
      else c1 - c2
  end.

(** A string as [argv] delivers it: no terminator inside. *)
Definition cstring (s : list Z) : Prop := Forall (fun c => c <> 0) s.

(** ASCII text: every code in 1..127. *)
Definition ascii_text (s : list Z) : Prop := Forall (fun c => 0 < c < 128) s.

(** ** Undefined behaviour and heap buffers *)

Inductive fault := DivisionByZero | UninitialisedRead | OutOfBounds.

Inductive outcome (A : Type) : Type :=
  | Done (a : A)
  | Undefined (f : fault).
Arguments Done {A} a.
Arguments Undefined {A} f.

#[global] Instance outcome_ret : MRet outcome := fun A a => Done a.

#[global] Instance outcome_bind : MBind outcome := fun A B k m =>
  match m with
  | Done a => k a
  | Undefined f => Undefined f
  end.

(** [malloc (n)]: [n] cells, none of them written. *)
Definition malloc (n : nat) : list (option Z) := replicate n None.

(** [buf[i] = v] *)
Definition store (buf : list (option Z)) (i : nat) (v : Z)
  : outcome (list (option Z)) :=
  if decide (i < length buf)%nat
  then Done (<[i := Some v]> buf)
  else Undefined OutOfBounds.

(** [buf[i]] as a value *)
Definition load (buf : list (option Z)) (i : nat) : outcome Z :=
  match buf !! i with
  | Some (Some v) => Done v
  | Some None => Undefined UninitialisedRead
  | None => Undefined OutOfBounds
  end.

(** What ["%s"] prints of a buffer: the cells up to the first 0. *)
Fixpoint read_string (buf : list (option Z)) : outcome (list Z) :=
  match buf with
  | [] => Undefined OutOfBounds
  | None :: _ => Undefined UninitialisedRead
  | Some c :: buf' =>
      if c =? 0 then Done [] else s ← read_string buf'; Done (c :: s)
  end.

(** ** The configuration *)

(** [output] and [keystream] are pointers that [build_config] leaves
    unset: a buffer without cells. The member [option] is [option_] here,
    [option] being a type of Rocq. *)
Record config_t := mk_config {
  option_ : modes_t;
  message : list Z;
  output : list (option Z);
  key : list Z;
  keystream : list (option Z)
}.

Definition set_output (config : config_t) (buf : list (option Z)) : config_t :=
  {| option_ := option_ config; message := message config; output := buf;
     key := key config; keystream := keystream config |}.

Definition set_keystream (config : config_t) (buf : list (option Z)) : config_t :=
  {| option_ := option_ config; message := message config;
     output := output config; key := key config; keystream := buf |}.

(** ** The documentation texts and [exit_print_info] *)

(** What a run leaves behind: both streams and the exit status. *)
Record process := mk_process {
  stdout : list Z;
  stderr : list Z;
  status : Z
}.

Definition dquote : string := String (ascii_of_nat 34) EmptyString.
Definition newline : string := String (ascii_of_nat 10) EmptyString.

Definition usage_str : string :=
  ("usage: ./vigenere [-h] " ++ dquote ++ "message" ++ dquote
   ++ " [-m MODE] [-k " ++ dquote ++ "KEY" ++ dquote ++ "]" ++ newline)%string.

Definition help_str : string :=
  (newline ++ "positional arguments: " ++ newline
   ++ "      message  specifies the message to encrypt/decrypt (A-Z, a-z)." ++ newline
   ++ "      -m       encrypt/decrypt the subsequent message. " ++ newline
   ++ "               (0 = encrypt, 1 = decrypt, 0 = default) " ++ newline
   ++ "      -k       specifies the keyword to use (variable length, ASCII-only). " ++ newline
   ++ "    " ++ newline ++ "optional arguments: " ++ newline
   ++ "      -h       displays help message and usage information." ++ newline
   ++ newline)%string.

Definition exit_print_info (type : docs_t) : process :=
  {| stdout := [];
     stderr := match type with
               | Usage => codes usage_str
               | Help => codes usage_str ++ codes help_str
               end;
     status := EXIT_FAILURE |}.

(** ** The cipher *)

(** The value added to the case offset when enciphering [c] with the
    keystream character [k], and when deciphering. *)
Definition enc_shift (c k : Z) : Z := Z.rem (toupper c + k) CHAR_SPACE.

Definition dec_shift (c k : Z) : Z :=
  Z.rem ((toupper c - k) + CHAR_SPACE) CHAR_SPACE.

Definition case_offset (c : Z) : Z :=
  if isupper c then ASCII_HIGHER_OFFSET else ASCII_LOWER_OFFSET.

(** The body of the loop of [encrypt], for [n] more values of [enc_ctr]:
    the loop runs [enc_ctr] from 0 to [text_len] inclusive. *)
Fixpoint encrypt_loop (n enc_ctr : nat) (config : config_t)
    (text_enciphered : list (option Z)) : outcome (list (option Z)) :=
  match n with
  | O => Done text_enciphered
  | S n' =>
      let c := char_at (message config) enc_ctr in
      text_enciphered' ←
        (if negb (isalpha c)
         then store text_enciphered enc_ctr c
         else k ← load (keystream config) enc_ctr;
              store text_enciphered enc_ctr (enc_shift c k + case_offset c));
      encrypt_loop n' (S enc_ctr) config text_enciphered'
  end.

Definition encrypt (config : config_t) : outcome config_t :=
  let text_len := strlen (message config) in
  let text_enciphered := malloc (text_len + 1) in
  text_enciphered ← encrypt_loop (S text_len) 0 config text_enciphered;
  Done (set_output config text_enciphered).

Fixpoint decrypt_loop (n dec_ctr : nat) (config : config_t)
    (text_deciphered : list (option Z)) : outcome (list (option Z)) :=
  match n with
  | O => Done text_deciphered
  | S n' =>
      let c := char_at (message config) dec_ctr in
      text_deciphered' ←
        (if negb (isalpha c)
         then store text_deciphered dec_ctr c
         else k ← load (keystream config) dec_ctr;
              store text_deciphered dec_ctr (dec_shift c k + case_offset c));
      decrypt_loop n' (S dec_ctr) config text_deciphered'
  end.

Definition decrypt (config : config_t) : outcome config_t :=
  let text_len := strlen (message config) in
  let text_deciphered := malloc (text_len + 1) in
  text_deciphered ← decrypt_loop (S text_len) 0 config text_deciphered;
  Done (set_output config text_deciphered).

(** The loop of [generate_keystream], for at most [n] more values of
    [key_ctr] (the bound [key_ctr <= text_len]); it also stops at the
    terminator of the message. [key_offset] never exceeds [key_ctr], so
    the difference is the same in [nat] as in [int]. The index is reduced
    modulo [key_len] in [size_t]: with [key_len = 0] that is a division by
    zero. *)
Fixpoint keystream_loop (n key_ctr key_offset : nat) (config : config_t)
    (key_len : nat) (new_keystream : list (option Z))
  : outcome (list (option Z)) :=
  match n with
  | O => Done new_keystream
  | S n' =>
      let c := char_at (message config) key_ctr in
      if c =? 0 then Done new_keystream
      else if negb (isalpha c) then
        new_keystream' ← store new_keystream key_ctr 32;
        keystream_loop n' (S key_ctr) (S key_offset) config key_len new_keystream'
      else
        match key_len with
        | O => Undefined DivisionByZero
        | S _ =>
            new_keystream' ←
              store new_keystream key_ctr
                (toupper (char_at (key config)
                            ((key_ctr - key_offset) mod key_len)%nat));
            keystream_loop n' (S key_ctr) key_offset config key_len new_keystream'
        end
  end.

Definition generate_keystream (config : config_t) : outcome config_t :=
  let key_len := strlen (key config) in
  let text_len := strlen (message config) in
  let new_keystream := malloc (text_len + 1) in
  new_keystream ← keystream_loop (S text_len) 0 0 config key_len new_keystream;
  Done (set_keystream config new_keystream).

(** ** The command line *)

Definition build_config (option_ : Z) (message key : list Z) : config_t :=
  {| option_ := mode_of_int option_; message := message; output := [];
     key := key; keystream := [] |}.

(** [argv[i]]; the program reads it only after comparing [i] with [argc]. *)
Definition arg (argv : list (list Z)) (i : nat) : list Z :=
  default [] (argv !! i).

(** [strncmp(a, lit, strlen(a)) == 0] *)
Definition matches (a : list Z) (lit : list Z) : bool :=
  strncmp a lit (strlen a) =? 0.

(** [parse_args]: [inl type] when the run ends in [exit_print_info (type)],
    [inr config] when it returns. *)
Definition parse_args (argv : list (list Z)) : docs_t + config_t :=
  let argc := length argv in
  if (argc <? 2)%nat then inl Usage
  else if (1 <? argc)%nat && matches (arg argv 1) (codes "-h") then inl Help
  else if matches (arg argv 1) [0] then inl Usage
  else
    let message := arg argv 1 in
    if (3 <? argc)%nat && matches (arg argv 2) (codes "-m") then
      if isdigit (char_at (arg argv 3) 0) then
        let option_ := Z.rem (char_at (arg argv 3) 0) 2 in
        if (5 <? argc)%nat && matches (arg argv 4) (codes "-k") then
          let key := arg argv 5 in
          inr (build_config option_ message key)
        else inl Usage
      else inl Usage
    else inl Usage.

(** The text a configuration leads to: the keystream is generated, the
    message transformed, and the output read back as ["%s"] does. *)
Definition transform (config : config_t) : outcome (list Z) :=
  config ← generate_keystream config;
  config ← (match option_ config with
            | Encrypt => encrypt config
            | Decrypt => decrypt config
            end);
  read_string (output config).

Definition main (argv : list (list Z)) : outcome process :=
  match parse_args argv with
  | inl type => Done (exit_print_info type)
  | inr config =>
      text ← transform config;
      Done {| stdout := text ++ codes newline; stderr := [];
              status := EXIT_SUCCESS |}
  end.

(** One run of the cipher on a message and a key in a mode. *)
Definition cipher (mode : modes_t) (M K : list Z) : outcome (list Z) :=
  transform (build_config (int_of_mode mode) M K).

(** ** Closed forms used to reason about the loops *)

(** The number of letters of a string, and of its first [i] characters. *)
Fixpoint count_alpha (s : list Z) : nat :=
  match s with
  | [] => O
  | c :: s' => if isalpha c then S (count_alpha s') else count_alpha s'
  end.

Definition alpha_before (M : list Z) (i : nat) : nat := count_alpha (take i M).

Definition has_alpha (s : list Z) : bool := existsb isalpha s.

(** The cells that the loop of [generate_keystream] writes for the rest [M]
    of a message when [j] letters precede it. *)
Fixpoint key_letters (K : list Z) (key_len j : nat) (M : list Z) : list Z :=
  match M with
  | [] => []
  | c :: M' =>
      if isalpha c
      then toupper (char_at K (j mod key_len)%nat) :: key_letters K key_len (S j) M'
      else 32 :: key_letters K key_len j M'
  end.

(** One character of the output of a loop that shifts by [f]. *)
Definition substitute (f : Z -> Z -> Z) (c k : Z) : Z :=
  if isalpha c then f c k + case_offset c else c.

Definition shift_of (mode : modes_t) : Z -> Z -> Z :=
  match mode with Encrypt => enc_shift | Decrypt => dec_shift end.

(** The loops of [encrypt] and [decrypt] differ in the shift only. *)
Fixpoint shift_loop (f : Z -> Z -> Z) (n ctr : nat) (config : config_t)
    (text : list (option Z)) : outcome (list (option Z)) :=
  match n with
  | O => Done text
  | S n' =>
      let c := char_at (message config) ctr in
      text' ←
        (if negb (isalpha c)
         then store text ctr c
         else k ← load (keystream config) ctr;
              store text ctr (f c k + case_offset c));
      shift_loop f n' (S ctr) config text'
  end.

(** The text a transformation writes for the rest [M] of a message when
    [j] letters precede it, and for a whole message. *)
Definition shifted (f : Z -> Z -> Z) (K : list Z) (key_len j : nat)
    (M : list Z) : list Z :=
  zip_with (substitute f) M (key_letters K key_len j M).

Definition ciphertext (mode : modes_t) (M K : list Z) : list Z :=
  shifted (shift_of mode) K (strlen K) 0 M.

(** A run that ends in [exit_print_info]: nothing on standard output, the
    usage line first on standard error, exit status [EXIT_FAILURE]. *)
Definition usage_failure (r : outcome process) : Prop :=
  exists p more,
    r = Done p /\ stdout p = [] /\ stderr p = codes usage_str ++ more
    /\ status p = EXIT_FAILURE.

(** ** Alphabet positions, in the words of the specification *)

(** The position 0..25 of an uppercase letter, and the letter at a
    position in the case of the character [c]. *)
Definition spec_position (u : Z) : Z := u - 65.

Definition spec_letter (pos : Z) (c : Z) : Z :=
  pos + (if isupper c then 65 else 97).

(** * Properties *)

(** ** Characters and strings *)

Lemma ASCII_LOWER_OFFSET_eq : ASCII_LOWER_OFFSET = 97.
Proof. reflexivity. Qed.

Lemma isalpha_NUL : isalpha 0 = false.
Proof. reflexivity. Qed.

Lemma ascii_text_cstring s : ascii_text s -> cstring s.
Proof. intros H. eapply Forall_impl; [exact H|]. simpl. lia. Qed.

Lemma cstring_cons c s : cstring (c :: s) <-> c <> 0 /\ cstring s.
Proof.
  unfold cstring. split.
  - inversion 1; auto.
  - intros [? ?]. by constructor.
Qed.

Lemma strlen_cstring s : cstring s -> strlen s = length s.
Proof.
  induction 1 as [|c s Hc _ IH]; simpl; [done|].
  destruct (Z.eqb_spec c 0); [done|]. by rewrite IH.
Qed.

Lemma char_at_middle (s1 s2 : list Z) c : char_at (s1 ++ c :: s2) (length s1) = c.
Proof. unfold char_at. by rewrite list_lookup_middle. Qed.

Lemma char_at_end (s : list Z) : char_at s (length s) = 0.
Proof. unfold char_at. by rewrite lookup_ge_None_2. Qed.

Lemma char_at_lookup (s : list Z) i c : s !! i = Some c -> char_at s i = c.
Proof. unfold char_at. by intros ->. Qed.

(** ** Buffers *)

Lemma store_fresh (B : list (option Z)) (rest : list (option Z)) v :
  store (B ++ None :: rest) (length B) v = Done ((B ++ [Some v]) ++ rest).
Proof.
  unfold store. rewrite length_app. simpl.
  destruct (decide _) as [_|H]; [|lia].
  rewrite insert_app_r_alt by lia. rewrite Nat.sub_diag. simpl.
  by rewrite <- app_assoc.
Qed.

Lemma load_written (B : list Z) (rest : list (option Z)) i k :
  B !! i = Some k -> load ((Some <$> B) ++ rest) i = Done k.
Proof.
  intros H. unfold load. rewrite lookup_app_l.
  - by rewrite list_lookup_fmap, H.
  - rewrite length_fmap. by eapply lookup_lt_Some.
Qed.

Lemma read_string_written (s : list Z) (rest : list (option Z)) :
  cstring s -> read_string ((Some <$> s) ++ Some 0 :: rest) = Done s.
Proof.
  induction 1 as [|c s Hc _ IH]; [done|].
  rewrite fmap_cons. cbn [app read_string].
  destruct (Z.eqb_spec c 0); [done|]. by rewrite IH.
Qed.

(** ** The keystream *)

Lemma key_letters_length K key_len M : forall j,
  length (key_letters K key_len j M) = length M.
Proof. induction M as [|c M IH]; intros j; simpl; [done|]. destruct (isalpha c); simpl; by rewrite IH. Qed.

Lemma keystream_loop_step n key_ctr key_offset config key_len buf :
  keystream_loop (S n) key_ctr key_offset config key_len buf =
  let c := char_at (message config) key_ctr in
  if c =? 0 then Done buf
  else if negb (isalpha c) then
    buf' ← store buf key_ctr 32;
    keystream_loop n (S key_ctr) (S key_offset) config key_len buf'
  else
    match key_len with
    | O => Undefined DivisionByZero
    | S _ =>
        buf' ← store buf key_ctr
                 (toupper (char_at (key config)
                             ((key_ctr - key_offset) mod key_len)%nat));
        keystream_loop n (S key_ctr) key_offset config key_len buf'
    end.
Proof. reflexivity. Qed.

(** The loop fails exactly when the key is empty and a letter is left in
    the message; otherwise it fills every cell but the last. *)
Lemma keystream_loop_eq config key_len : forall M2 M1 (B1 : list (option Z)) o,
  message config = M1 ++ M2 -> cstring M2 ->
  length B1 = length M1 -> (o <= length M1)%nat ->
  keystream_loop (S (length M2)) (length M1) o config key_len
    (B1 ++ replicate (S (length M2)) None)
  = if (key_len =? 0)%nat && has_alpha M2 then Undefined DivisionByZero
    else Done (B1 ++ (Some <$> key_letters (key config) key_len (length M1 - o) M2)
                  ++ [None]).
Proof.
  induction M2 as [|c M2 IH]; intros M1 B1 o HM Hc HB Ho;
    rewrite keystream_loop_step; cbv zeta.
  - rewrite HM, app_nil_r, char_at_end. simpl. by rewrite andb_false_r.
  - apply cstring_cons in Hc as [Hc0 Hc].
    rewrite HM, char_at_middle.
    destruct (Z.eqb_spec c 0) as [|_]; [done|].
    cbn [has_alpha existsb key_letters length]. fold (has_alpha M2).
    assert (HM' : message config = (M1 ++ [c]) ++ M2) by (by rewrite <- app_assoc).
    change (replicate (S (S (length M2))) None)
      with (@None Z :: replicate (S (length M2)) None).
    destruct (isalpha c) eqn:Ha; cbn [negb orb].
    + destruct key_len as [|kl]; [done|].
      rewrite <- HB, store_fresh. cbn [mbind outcome_bind].
      specialize (IH (M1 ++ [c]) (B1 ++ [Some (toupper (char_at (key config)
                        ((length B1 - o) mod S kl)%nat))]) o HM' Hc).
      rewrite !length_app in IH. cbn [length] in IH.
      rewrite <- HB, Nat.add_1_r in IH.
      rewrite IH by lia. cbn [Nat.eqb andb].
      rewrite Nat.sub_succ_l by lia. rewrite fmap_cons. by rewrite <- !app_assoc.
    + rewrite <- HB, store_fresh. cbn [mbind outcome_bind].
      specialize (IH (M1 ++ [c]) (B1 ++ [Some 32]) (S o) HM' Hc).
      rewrite !length_app in IH. cbn [length] in IH.
      rewrite <- HB, Nat.add_1_r in IH.
      rewrite IH by lia. cbn [Nat.sub].
      destruct ((key_len =? 0)%nat && has_alpha M2); [done|].
      rewrite fmap_cons. by rewrite <- !app_assoc.
Qed.

Lemma generate_keystream_eq config :
  cstring (message config) ->
  generate_keystream config =
  if (strlen (key config) =? 0)%nat && has_alpha (message config)
  then Undefined DivisionByZero
  else Done (set_keystream config
               ((Some <$> key_letters (key config) (strlen (key config)) 0
                            (message config)) ++ [None])).
Proof.
  intros HM. unfold generate_keystream, malloc.
  rewrite (strlen_cstring _ HM), Nat.add_1_r.
  pose proof (keystream_loop_eq config (strlen (key config))
                (message config) [] [] 0%nat) as H.
  cbn [length app Nat.sub] in H. rewrite H by done.
  by destruct (_ && _).
Qed.

Lemma alpha_before_0 M : alpha_before M 0 = 0%nat.
Proof. by destruct M. Qed.

Lemma alpha_before_S c M i :
  alpha_before (c :: M) (S i) =
  if isalpha c then S (alpha_before M i) else alpha_before M i.
Proof. reflexivity. Qed.

(** Each cell of the keystream, read off the message: a letter takes the
    key character numbered by the letters before it, anything else a
    space. *)
Lemma key_letters_lookup K key_len : forall M j i c,
  M !! i = Some c ->
  key_letters K key_len j M !! i =
  Some (if isalpha c
        then toupper (char_at K ((j + alpha_before M i) mod key_len)%nat)
        else 32).
Proof.
  induction M as [|c' M IH]; intros j [|i] c Hi; simplify_eq/=.
  - rewrite alpha_before_0, Nat.add_0_r. by destruct (isalpha c).
  - rewrite alpha_before_S.
    destruct (isalpha c'); simpl; rewrite (IH _ _ _ Hi); [|done].
    by rewrite Nat.add_succ_r.
Qed.

(** ** The two transformations *)

Lemma shift_loop_step f n ctr config text :
  shift_loop f (S n) ctr config text =
  let c := char_at (message config) ctr in
  text' ←
    (if negb (isalpha c)
     then store text ctr c
     else k ← load (keystream config) ctr;
          store text ctr (f c k + case_offset c));
  shift_loop f n (S ctr) config text'.
Proof. reflexivity. Qed.

Lemma encrypt_loop_shift n : forall ctr config text,
  encrypt_loop n ctr config text = shift_loop enc_shift n ctr config text.
Proof.
  induction n as [|n IH]; intros; [done|]. simpl.
  destruct (negb _); [destruct (store _ _ _)|destruct (load _ _)]; simpl; try done.
  destruct (store _ _ _); simpl; done.
Qed.

Lemma decrypt_loop_shift n : forall ctr config text,
  decrypt_loop n ctr config text = shift_loop dec_shift n ctr config text.
Proof.
  induction n as [|n IH]; intros; [done|]. simpl.
  destruct (negb _); [destruct (store _ _ _)|destruct (load _ _)]; simpl; try done.
  destruct (store _ _ _); simpl; done.
Qed.

Section shift.
Variable f : Z -> Z -> Z.

(** On a keystream whose first cells are written, the loop writes every
    cell of the output, the last one with the terminator. *)
Lemma shift_loop_eq config : forall M2 M1 kl1 kl2 rest (B1 : list (option Z)),
  message config = M1 ++ M2 ->
  keystream config = (Some <$> (kl1 ++ kl2)) ++ rest ->
  length kl1 = length M1 -> length kl2 = length M2 ->
  length B1 = length M1 ->
  shift_loop f (S (length M2)) (length M1) config
    (B1 ++ replicate (S (length M2)) None)
  = Done (B1 ++ (Some <$> zip_with (substitute f) M2 kl2) ++ [Some 0]).
Proof.
  induction M2 as [|c M2 IH]; intros M1 kl1 kl2 rest B1 HM HK H1 H2 HB;
    rewrite shift_loop_step; cbv zeta.
  - rewrite HM, app_nil_r, char_at_end. cbn [isalpha_NUL negb length replicate].
    rewrite isalpha_NUL. cbn [negb]. rewrite <- HB, store_fresh. simpl.
    by rewrite <- app_assoc.
  - destruct kl2 as [|k kl2]; [done|]. cbn [length] in *.
    rewrite HM, char_at_middle.
    change (replicate (S (S (length M2))) None)
      with (@None Z :: replicate (S (length M2)) None).
    assert (HM' : message config = (M1 ++ [c]) ++ M2) by (by rewrite <- app_assoc).
    assert (HK' : keystream config = (Some <$> ((kl1 ++ [k]) ++ kl2)) ++ rest)
      by (by rewrite <- app_assoc).
    assert (Hl : forall v,
      shift_loop f (S (length M2)) (S (length B1)) config
        ((B1 ++ [Some v]) ++ replicate (S (length M2)) None)
      = Done (B1 ++ Some v :: (Some <$> zip_with (substitute f) M2 kl2) ++ [Some 0])).
    { intros v.
      specialize (IH (M1 ++ [c]) (kl1 ++ [k]) kl2 rest (B1 ++ [Some v]) HM' HK').
      rewrite !length_app in IH. cbn [length] in IH.
      rewrite <- HB, !Nat.add_1_r in IH. rewrite IH by lia.
      by rewrite <- app_assoc. }
    cbn [zip_with]. rewrite fmap_cons. unfold substitute at 1.
    destruct (isalpha c) eqn:Ha; cbn [negb].
    + rewrite HK, <- H1.
      rewrite (load_written (kl1 ++ k :: kl2) rest (length kl1) k)
        by (by apply list_lookup_middle).
      cbn [mbind outcome_bind]. rewrite H1, <- HB, store_fresh.
      cbn [mbind outcome_bind]. by rewrite Hl.
    + rewrite <- HB, store_fresh. cbn [mbind outcome_bind]. by rewrite Hl.
Qed.
End shift.

Lemma encrypt_eq config kl rest :
  cstring (message config) ->
  keystream config = (Some <$> kl) ++ rest ->
  length kl = length (message config) ->
  encrypt config =
  Done (set_output config
          ((Some <$> zip_with (substitute enc_shift) (message config) kl)
             ++ [Some 0])).
Proof.
  intros HM HK Hl. unfold encrypt, malloc.
  rewrite encrypt_loop_shift, (strlen_cstring _ HM), Nat.add_1_r.
  pose proof (shift_loop_eq enc_shift config (message config) [] [] kl rest [])
    as H.
  cbn [length app] in H. by rewrite H.
Qed.

Lemma decrypt_eq config kl rest :
  cstring (message config) ->
  keystream config = (Some <$> kl) ++ rest ->
  length kl = length (message config) ->
  decrypt config =
  Done (set_output config
          ((Some <$> zip_with (substitute dec_shift) (message config) kl)
             ++ [Some 0])).
Proof.
  intros HM HK Hl. unfold decrypt, malloc.
  rewrite decrypt_loop_shift, (strlen_cstring _ HM), Nat.add_1_r.
  pose proof (shift_loop_eq dec_shift config (message config) [] [] kl rest [])
    as H.
  cbn [length app] in H. by rewrite H.
Qed.

(** ** Character arithmetic *)

Ltac ctype :=
  cbv [shift_of substitute enc_shift dec_shift case_offset spec_letter
       spec_position toupper isalpha isdigit isupper islower CHAR_SPACE
       ASCII_LOWER_OFFSET ASCII_HIGHER_OFFSET] in *;
  change (Z.lxor 65 32) with 97 in *.

Ltac chars :=
  ctype; repeat case_match; Z.to_euclidean_division_equations; lia.

Lemma isalpha_cases c : isalpha c = true <-> 65 <= c <= 90 \/ 97 <= c <= 122.
Proof. ctype. lia. Qed.

Lemma isupper_cases c : isupper c = true <-> 65 <= c <= 90.
Proof. ctype. lia. Qed.

Lemma islower_cases c : islower c = true <-> 97 <= c <= 122.
Proof. ctype. lia. Qed.

Lemma toupper_alpha c : isalpha c = true -> 65 <= toupper c <= 90.
Proof. intros H%isalpha_cases. chars. Qed.

(** Whatever the keystream holds, the value stored for a letter lies
    between 40 and 122: it fits a [char], signed or not, and is not the
    terminator. *)
Lemma stored_value_range mode c k :
  40 <= shift_of mode c k + case_offset c <= 122.
Proof. destruct mode; chars. Qed.

Lemma substitute_nonzero mode c k : c <> 0 -> substitute (shift_of mode) c k <> 0.
Proof.
  intros Hc. unfold substitute. destruct (isalpha c); [|done].
  pose proof (stored_value_range mode c k). lia.
Qed.

Lemma shifted_length f K key_len j M : length (shifted f K key_len j M) = length M.
Proof.
  unfold shifted. rewrite length_zip_with, key_letters_length. lia.
Qed.

Lemma shifted_cstring mode K key_len M : forall j,
  cstring M -> cstring (shifted (shift_of mode) K key_len j M).
Proof.
  unfold shifted.
  induction M as [|c M IH]; intros j HM; [constructor|].
  apply cstring_cons in HM as [Hc HM]. simpl.
  destruct (isalpha c); simpl; apply cstring_cons;
    (split; [by apply substitute_nonzero | by apply IH]).
Qed.

(** ** A run of the cipher, in closed form *)

Lemma transform_eq config :
  cstring (message config) ->
  transform config =
  if (strlen (key config) =? 0)%nat && has_alpha (message config)
  then Undefined DivisionByZero
  else Done (ciphertext (option_ config) (message config) (key config)).
Proof.
  intros HM. unfold transform. rewrite generate_keystream_eq by done.
  destruct (_ && _); [done|]. cbn [mbind outcome_bind].
  set (kl := key_letters _ _ _ _).
  set (config' := set_keystream _ _).
  assert (Hl : length kl = length (message config'))
    by apply key_letters_length.
  assert (HK : keystream config' = (Some <$> kl) ++ [None]) by done.
  assert (HM' : cstring (message config')) by done.
  change (option_ config') with (option_ config).
  destruct (option_ config) eqn:Hmode.
  - rewrite (encrypt_eq config' kl [None]) by done. cbn [mbind outcome_bind set_output output].
    apply read_string_written.
    by apply (shifted_cstring Encrypt (key config) (strlen (key config)) (message config) 0%nat).
  - rewrite (decrypt_eq config' kl [None]) by done. cbn [mbind outcome_bind set_output output].
    apply read_string_written.
    by apply (shifted_cstring Decrypt (key config) (strlen (key config)) (message config) 0%nat).
Qed.

Lemma cipher_eq mode M K :
  cstring M ->
  cipher mode M K =
  if (strlen K =? 0)%nat && has_alpha M
  then Undefined DivisionByZero
  else Done (ciphertext mode M K).
Proof.
  intros HM. unfold cipher. rewrite transform_eq by done.
  by destruct mode.
Qed.

(** ** The command line *)

(** [strncmp] bounded by the length of its first argument accepts every
    prefix of the literal, the empty string included. *)
Lemma matches_prefix : forall a lit : list Z,
  cstring a -> cstring lit -> matches a lit = true <-> a `prefix_of` lit.
Proof.
  unfold matches.
  induction a as [|c a IH]; intros lit Ha Hlit.
  - split; [intros _; apply prefix_nil | done].
  - apply cstring_cons in Ha as [Hc Ha]. cbn [strlen].
    destruct (Z.eqb_spec c 0) as [|_]; [done|]. cbn [strncmp tail].
    destruct lit as [|d lit].
    + change (char_at [] 0) with 0. change (char_at (c :: a) 0) with c.
      destruct (Z.eqb_spec c 0) as [|_]; [done|].
      split; [lia | intros H; by apply prefix_nil_not in H].
    + apply cstring_cons in Hlit as [Hd Hlit].
      change (char_at (c :: a) 0) with c. change (char_at (d :: lit) 0) with d.
      destruct (Z.eqb_spec c d) as [->|Hcd].
      * destruct (Z.eqb_spec d 0) as [|_]; [done|].
        rewrite IH by done. split; [apply prefix_cons | apply prefix_cons_inv_2].
      * split; [lia | intros H%prefix_cons_inv_1; done].
Qed.

Lemma matches_empty_literal (a : list Z) :
  cstring a -> a <> [] -> matches a [0] = false.
Proof.
  intros Ha Hne. destruct a as [|c a]; [done|].
  apply cstring_cons in Ha as [Hc _]. unfold matches. cbn [strlen].
  destruct (Z.eqb_spec c 0) as [|_]; [done|]. cbn [strncmp].
  change (char_at (c :: a) 0) with c. change (char_at [0] 0) with 0.
  destruct (Z.eqb_spec c 0) as [|_]; [done|]. lia.
Qed.

Lemma exit_usage_failure type : usage_failure (Done (exit_print_info type)).
Proof.
  exists (exit_print_info type).
  destruct type; [exists (codes help_str) | exists []]; repeat split.
Qed.

(** Whenever [parse_args] ends the run, it does so through
    [exit_print_info]. *)
Lemma main_exit argv type :
  parse_args argv = inl type -> usage_failure (main argv).
Proof. intros H. unfold main. rewrite H. apply exit_usage_failure. Qed.

(** [parse_args] returns only if [argv[2]] passes for [-m] and [argv[3]]
    starts with a digit. *)
Lemma parse_args_returns argv config :
  parse_args argv = inr config ->
  (3 < length argv)%nat /\ matches (arg argv 2) (codes "-m") = true
  /\ isdigit (char_at (arg argv 3) 0) = true
  /\ (5 < length argv)%nat /\ matches (arg argv 4) (codes "-k") = true
  /\ config = build_config (Z.rem (char_at (arg argv 3) 0) 2) (arg argv 1)
                (arg argv 5).
Proof.
  unfold parse_args. intros H.
  repeat case_match; simplify_eq.
  repeat match goal with
         | H : _ && _ = true |- _ => apply andb_true_iff in H as [? ?]
         | H : (_ <? _)%nat = true |- _ => apply Nat.ltb_lt in H
         end.
  done.
Qed.

Lemma parse_args_exits argv :
  (length argv <= 3)%nat \/ matches (arg argv 2) (codes "-m") = false
  \/ isdigit (char_at (arg argv 3) 0) = false
  \/ (length argv <= 5)%nat \/ matches (arg argv 4) (codes "-k") = false ->
  exists type, parse_args argv = inl type.
Proof.
  intros H. destruct (parse_args argv) as [type|config] eqn:Hp; [by exists type|].
  apply parse_args_returns in Hp as (? & ? & ? & ? & ? & _).
  destruct H as [?|[?|[?|[?|?]]]]; first [lia | congruence].
Qed.

(** ** The text of a run, cell by cell *)

Lemma alphabetic_key_cstring K : Forall (fun k => isalpha k = true) K -> cstring K.
Proof. intros H. eapply Forall_impl; [exact H|]. by intros k Hk ->. Qed.

Lemma enc_shift_positions c k :
  isalpha c = true -> 65 <= k <= 90 ->
  enc_shift c k + case_offset c
  = spec_letter ((spec_position (toupper c) + spec_position k) mod 26) c.
Proof. intros H%isalpha_cases Hk. chars. Qed.

Lemma dec_shift_positions c k :
  isalpha c = true -> 65 <= k <= 90 ->
  0 <= dec_shift c k
  /\ dec_shift c k + case_offset c
     = spec_letter ((spec_position (toupper c) - spec_position k + 26) mod 26) c.
Proof. intros H%isalpha_cases Hk. split; chars. Qed.

Lemma shifted_cons f K key_len j c M :
  shifted f K key_len j (c :: M) =
  if isalpha c
  then substitute f c (toupper (char_at K (j mod key_len)%nat))
         :: shifted f K key_len (S j) M
  else c :: shifted f K key_len j M.
Proof.
  unfold shifted. cbn [key_letters]. unfold substitute at 1.
  destruct (isalpha c) eqn:Ha; cbn [zip_with]; [done|].
  unfold substitute at 1. by rewrite Ha.
Qed.

Lemma shifted_lookup f K key_len M i c :
  M !! i = Some c ->
  shifted f K key_len 0 M !! i =
  Some (substitute f c
          (if isalpha c
           then toupper (char_at K (alpha_before M i mod key_len)%nat)
           else 32)).
Proof.
  intros Hi. unfold shifted.
  rewrite lookup_zip_with, Hi, (key_letters_lookup _ _ _ _ _ _ Hi). done.
Qed.

(** The cells of a run: the keystream that [generate_keystream] leaves for
    a non-empty key, and the text that the transformation leaves for it. *)
Lemma keystream_cell config i c :
  cstring (message config) -> strlen (key config) <> 0%nat ->
  message config !! i = Some c ->
  exists config',
    generate_keystream config = Done config'
    /\ message config' = message config
    /\ keystream config'
       = (Some <$> key_letters (key config) (strlen (key config)) 0
                     (message config)) ++ [None]
    /\ keystream config' !! i
       = Some (Some (if isalpha c
                     then toupper (char_at (key config)
                            (alpha_before (message config) i
                               mod strlen (key config))%nat)
                     else 32)).
Proof.
  intros HM HK Hi. eexists. rewrite generate_keystream_eq by done.
  destruct (Nat.eqb_spec (strlen (key config)) 0) as [|_]; [done|].
  split; [reflexivity|]. split; [done|]. split; [done|].
  cbn [keystream set_keystream].
  rewrite lookup_app_l
    by (rewrite length_fmap, key_letters_length; by eapply lookup_lt_Some).
  by rewrite list_lookup_fmap, (key_letters_lookup _ _ _ _ _ _ Hi).
Qed.

Lemma output_cell f (M kl : list Z) i c k :
  M !! i = Some c -> kl !! i = Some k ->
  ((Some <$> zip_with (substitute f) M kl) ++ [Some 0]) !! i
  = Some (Some (substitute f c k)).
Proof.
  intros Hc Hk.
  assert (Hz : zip_with (substitute f) M kl !! i = Some (substitute f c k)).
  { rewrite lookup_zip_with, Hc. simpl. by rewrite Hk. }
  rewrite lookup_app_l by (rewrite length_fmap; by eapply lookup_lt_Some).
  by rewrite list_lookup_fmap, Hz.
Qed.

(** ** Keys of letters: what holds there *)

Lemma enc_keeps_case c k :
  isalpha c = true -> 0 <= k ->
  isupper (enc_shift c k + case_offset c) = isupper c
  /\ islower (enc_shift c k + case_offset c) = islower c.
Proof.
  intros H%isalpha_cases Hk. split; apply eq_true_iff_eq; chars.
Qed.

Lemma dec_keeps_case c k :
  isalpha c = true -> k <= 91 ->
  isupper (dec_shift c k + case_offset c) = isupper c
  /\ islower (dec_shift c k + case_offset c) = islower c.
Proof.
  intros H%isalpha_cases Hk. split; apply eq_true_iff_eq; chars.
Qed.

Lemma dec_enc c k :
  isalpha c = true -> 0 <= k <= 91 ->
  substitute dec_shift (substitute enc_shift c k) k = c.
Proof. intros H%isalpha_cases Hk. chars. Qed.

Lemma enc_alpha c k :
  isalpha c = true -> 0 <= k -> isalpha (substitute enc_shift c k) = true.
Proof.
  intros Ha Hk. unfold substitute. rewrite Ha.
  destruct (enc_keeps_case c k Ha Hk) as [Hu Hl].
  unfold isalpha in *. by rewrite Hu, Hl.
Qed.

Section alphabetic_key.
Variable K : list Z.
Hypothesis K_nonempty : K <> [].
Hypothesis K_letters : Forall (fun k => isalpha k = true) K.

Lemma alphabetic_key_strlen : strlen K = length K /\ strlen K <> 0%nat.
Proof.
  rewrite strlen_cstring by by apply alphabetic_key_cstring.
  split; [done|]. by destruct K.
Qed.

Lemma alphabetic_key_char j :
  65 <= toupper (char_at K (j mod strlen K)%nat) <= 90.
Proof.
  destruct alphabetic_key_strlen as [Hl Hne].
  destruct (lookup_lt_is_Some_2 K (j mod strlen K)%nat) as [kc Hkc].
  { rewrite <- Hl. by apply Nat.mod_upper_bound. }
  rewrite (char_at_lookup _ _ _ Hkc). apply toupper_alpha.
  rewrite Forall_lookup in K_letters. by apply (K_letters _ _ Hkc).
Qed.

Lemma shifted_round_trip M : forall j,
  shifted dec_shift K (strlen K) j (shifted enc_shift K (strlen K) j M) = M.
Proof.
  induction M as [|c M IH]; intros j; [done|].
  rewrite shifted_cons. pose proof (alphabetic_key_char j) as Hk.
  destruct (isalpha c) eqn:Ha.
  - rewrite shifted_cons, enc_alpha, dec_enc, IH by (done || lia). done.
  - by rewrite shifted_cons, Ha, IH.
Qed.

(** With a key of letters, deciphering an enciphered message gives the
    message back. *)
Lemma round_trip_alphabetic_key M :
  cstring M ->
  cipher Encrypt M K = Done (ciphertext Encrypt M K)
  /\ cipher Decrypt (ciphertext Encrypt M K) K = Done M.
Proof.
  intros HM. destruct alphabetic_key_strlen as [_ Hne].
  rewrite !cipher_eq
    by (done || by apply (shifted_cstring Encrypt K (strlen K) M 0%nat)).
  destruct (Nat.eqb_spec (strlen K) 0) as [|_]; [done|]. cbn [andb].
  split; [done|]. f_equal. apply shifted_round_trip.
Qed.

(** With a key of letters, both modes keep the case of every letter. *)
Lemma case_kept_alphabetic_key mode M i c :
  cstring M -> M !! i = Some c -> isalpha c = true ->
  exists out o,
    cipher mode M K = Done out /\ out !! i = Some o
    /\ isupper o = isupper c /\ islower o = islower c.
Proof.
  intros HM Hi Ha. destruct alphabetic_key_strlen as [_ Hne].
  exists (ciphertext mode M K). eexists. rewrite cipher_eq by done.
  destruct (Nat.eqb_spec (strlen K) 0) as [|_]; [done|]. cbn [andb].
  split; [done|]. unfold ciphertext.
  rewrite (shifted_lookup _ _ _ _ _ _ Hi), Ha. split; [done|].
  pose proof (alphabetic_key_char (alpha_before M i)) as Hk.
  unfold substitute. rewrite Ha.
  destruct mode; [apply enc_keeps_case | apply dec_keeps_case]; done || lia.
Qed.

(** With a key of letters, the value that [decrypt] adds to the case
    offset is (m - k + 26) mod 26 and is not negative. *)
Lemma decrypt_index_alphabetic_key M i c :
  cstring M -> M !! i = Some c -> isalpha c = true ->
  exists out k,
    cipher Decrypt M K = Done out
    /\ k = toupper (char_at K (alpha_before M i mod strlen K)%nat)
    /\ 0 <= dec_shift c k
    /\ out !! i
       = Some (spec_letter
                 ((spec_position (toupper c) - spec_position k + 26) mod 26)
                 c).
Proof.
  intros HM Hi Ha. destruct alphabetic_key_strlen as [_ Hne].
  exists (ciphertext Decrypt M K). eexists. rewrite cipher_eq by done.
  destruct (Nat.eqb_spec (strlen K) 0) as [|_]; [done|]. cbn [andb].
  split; [done|]. split; [done|].
  pose proof (alphabetic_key_char (alpha_before M i)) as Hk.
  destruct (dec_shift_positions c _ Ha Hk) as [H0 Heq].
  split; [done|]. unfold ciphertext.
  rewrite (shifted_lookup _ _ _ _ _ _ Hi), Ha.
  unfold substitute. rewrite Ha. cbn [shift_of]. by rewrite Heq.
Qed.
End alphabetic_key.

(** Enciphering keeps the case of every letter for every non-empty ASCII
    key, of letters or not. *)
Lemma case_kept_encrypt_ascii_key M K i c :
  cstring M -> ascii_text K -> K <> [] ->
  M !! i = Some c -> isalpha c = true ->
  exists out o,
    cipher Encrypt M K = Done out /\ out !! i = Some o
    /\ isupper o = isupper c /\ islower o = islower c.
Proof.
  intros HM HK Hne Hi Ha.
  pose proof (strlen_cstring K (ascii_text_cstring K HK)) as Hl.
  assert (Hlen : strlen K <> 0%nat) by (rewrite Hl; by destruct K).
  exists (ciphertext Encrypt M K). eexists. rewrite cipher_eq by done.
  destruct (Nat.eqb_spec (strlen K) 0) as [|_]; [done|]. cbn [andb].
  split; [done|]. unfold ciphertext.
  rewrite (shifted_lookup _ _ _ _ _ _ Hi), Ha. split; [done|].
  unfold substitute. rewrite Ha. apply enc_keeps_case; [done|].
  destruct (lookup_lt_is_Some_2 K (alpha_before M i mod strlen K)%nat)
    as [kc Hkc]; [rewrite <- Hl; by apply Nat.mod_upper_bound|].
  rewrite (char_at_lookup _ _ _ Hkc).
  unfold ascii_text in HK. rewrite Forall_lookup in HK.
  specialize (HK _ _ Hkc). cbn beta in HK. chars.
Qed.

(** ** Claims *)

(** Proves that a literal has a property of all its characters. *)
Ltac literal :=
  repeat first
    [ apply Forall_nil_2
    | apply Forall_cons_2; [vm_compute; first [discriminate | done] |] ].

(** C2. For a message and a non-empty key, [generate_keystream] returns
    a configuration whose keystream buffer has one cell per character of
    the message and one more, left unwritten, for the terminator. At an
    index where the message has a letter, the cell holds the uppercase of
    the key character numbered by the count of letters before that index,
    modulo the length of the key: that character less 32 when it is a
    lowercase letter, and itself otherwise. Elsewhere the cell holds a
    space, which is no letter, so no key character is used up there. For
    the message HELLO WORLD the keystream reads KEYKE YKEYK, under the
    key KEY and under the key key alike. *)
Theorem keystream_cycles_over_letters config :
  cstring (message config) -> cstring (key config) -> key config <> [] ->
  (exists config',
      generate_keystream config = Done config'
      /\ length (keystream config') = S (length (message config))
      /\ keystream config' !! length (message config) = Some None
      /\ forall i c, message config !! i = Some c ->
           if isalpha c
           then exists kc u,
                  key config
                    !! (alpha_before (message config) i mod length (key config))%nat
                  = Some kc
                  /\ keystream config' !! i = Some (Some u)
                  /\ u = toupper kc
                  /\ (97 <= kc <= 122 -> u = kc - 32)
                  /\ (~ 97 <= kc <= 122 -> u = kc)
           else keystream config' !! i = Some (Some 32) /\ isalpha 32 = false)
  /\ (exists config',
        generate_keystream (build_config 0 (codes "HELLO WORLD") (codes "KEY"))
        = Done config'
        /\ keystream config' = (Some <$> codes "KEYKE YKEYK") ++ [None])
  /\ (exists config',
        generate_keystream (build_config 0 (codes "HELLO WORLD") (codes "key"))
        = Done config'
        /\ keystream config' = (Some <$> codes "KEYKE YKEYK") ++ [None]).
Proof.
  intros HM HK Hne.
  split; [|split; eexists; (split; [reflexivity|reflexivity])].
  assert (Hlen : strlen (key config) <> 0%nat).
  { rewrite strlen_cstring by done. by destruct (key config). }
  eexists. rewrite generate_keystream_eq by done.
  destruct (Nat.eqb_spec (strlen (key config)) 0) as [|_]; [done|].
  split; [reflexivity|]. cbn [keystream set_keystream andb].
  set (ks := key_letters (key config) (strlen (key config)) 0 (message config)).
  assert (Hks : length (Some <$> ks) = length (message config))
    by (rewrite length_fmap; apply key_letters_length).
  split; [rewrite length_app, Hks; cbn; lia|].
  split; [by rewrite lookup_app_r, Hks, Nat.sub_diag by lia|].
  intros i c Hi.
  rewrite lookup_app_l by (rewrite Hks; by eapply lookup_lt_Some).
  unfold ks. rewrite list_lookup_fmap, (key_letters_lookup _ _ _ _ _ _ Hi).
  rewrite strlen_cstring in * by done. cbn [Nat.add].
  destruct (isalpha c); [|done].
  destruct (lookup_lt_is_Some_2 (key config)
              (alpha_before (message config) i mod length (key config))%nat)
    as [kc Hkc]; [by apply Nat.mod_upper_bound|].
  exists kc, (toupper kc). rewrite (char_at_lookup _ _ _ Hkc).
  repeat split; try done; intros; chars.
Qed.

(** The lowercase key ab over the message [Hi, you]: the first cell of
    the keystream holds the uppercase A, the third a space, and the
    cell after the last character is unwritten. *)
Lemma keystream_cycles_over_letters_witness :
  let config := build_config 1 (codes "Hi, you") (codes "ab") in
  cstring (message config) /\ cstring (key config) /\ key config <> []
  /\ exists config',
       generate_keystream config = Done config'
       /\ keystream config' !! 0%nat = Some (Some 65)
       /\ keystream config' !! 2%nat = Some (Some 32)
       /\ keystream config' !! 7%nat = Some None.
Proof.
  intros config.
  assert (HM : cstring (message config)) by literal.
  assert (HK : cstring (key config)) by literal.
  assert (Hne : key config <> []) by discriminate.
  split; [exact HM|]. split; [exact HK|]. split; [exact Hne|].
  destruct (keystream_cycles_over_letters config HM HK Hne)
    as [(config' & Hgen & _ & Hend & Hcells) _].
  exists config'. split; [exact Hgen|].
  pose proof (Hcells 0%nat 72 eq_refl) as H0.
  pose proof (Hcells 2%nat 44 eq_refl) as H2.
  change (isalpha 72) with true in H0. change (isalpha 44) with false in H2.
  cbv iota in H0, H2.
  destruct H0 as (kc & u & Hkc & Hu & _ & Hlow & _).
  vm_compute in Hkc. injection Hkc as <-.
  split; [by rewrite Hu, Hlow by lia|].
  split; [exact (proj1 H2) | exact Hend].
Defined.

(** C3. For a message and a non-empty key of letters, at an index where
    the message has a letter, [encrypt] stores the letter of the alphabet
    at position (m + k) mod 26, in the case of the message character,
    where m and k are the positions 0..25 of the uppercased message
    character and of the keystream character. HELLO under KEY is RIJVS. *)
Theorem encrypt_adds_positions M K i c :
  cstring M -> K <> [] -> Forall (fun k => isalpha k = true) K ->
  M !! i = Some c -> isalpha c = true ->
  (exists config1 config2 k,
      generate_keystream (build_config 0 M K) = Done config1
      /\ keystream config1 !! i = Some (Some k)
      /\ encrypt config1 = Done config2
      /\ 0 <= spec_position (toupper c) <= 25
      /\ 0 <= spec_position k <= 25
      /\ output config2 !! i
         = Some (Some (spec_letter
                         ((spec_position (toupper c) + spec_position k) mod 26)
                         c)))
  /\ cipher Encrypt (codes "HELLO") (codes "KEY") = Done (codes "RIJVS").
Proof.
  intros HM Hne HK Hi Ha. split; [|reflexivity].
  pose proof (alphabetic_key_cstring K HK) as HKc.
  assert (Hlen : strlen K <> 0%nat)
    by (rewrite strlen_cstring by done; by destruct K).
  destruct (keystream_cell (build_config 0 M K) i c HM Hlen Hi)
    as (config1 & Hgen & Hmsg & Hks & Hcell).
  rewrite Ha in Hcell. cbn [build_config key message] in *.
  set (j := (alpha_before M i mod strlen K)%nat) in *.
  destruct (lookup_lt_is_Some_2 K j) as [kc Hkc].
  { rewrite <- (strlen_cstring K) by done. by apply Nat.mod_upper_bound. }
  rewrite (char_at_lookup _ _ _ Hkc) in Hcell.
  assert (Hk : 65 <= toupper kc <= 90).
  { apply toupper_alpha. rewrite Forall_lookup in HK. by apply (HK j). }
  eexists config1, _, (toupper kc).
  split; [done|]. split; [done|].
  split.
  { eapply encrypt_eq; [by rewrite Hmsg | exact Hks |].
    by rewrite key_letters_length, Hmsg. }
  pose proof (toupper_alpha c Ha).
  split; [unfold spec_position; lia|]. split; [unfold spec_position; lia|].
  cbn [output set_output]. rewrite Hmsg.
  rewrite Hks, lookup_app_l, list_lookup_fmap in Hcell
    by (rewrite length_fmap, key_letters_length; by eapply lookup_lt_Some).
  destruct (key_letters K (strlen K) 0 M !! i) as [k|] eqn:Hkl; [|done].
  simpl in Hcell. injection Hcell as ->.
  rewrite (output_cell enc_shift M _ i c (toupper kc) Hi Hkl).
  unfold substitute. rewrite Ha. by rewrite enc_shift_positions.
Qed.

(** The third character of [Attack!] under the key Lemon: t becomes f. *)
Lemma encrypt_adds_positions_witness :
  cstring (codes "Attack!") /\ codes "Lemon" <> []
  /\ Forall (fun k => isalpha k = true) (codes "Lemon")
  /\ codes "Attack!" !! 2%nat = Some 116 /\ isalpha 116 = true
  /\ exists config2,
       (generate_keystream (build_config 0 (codes "Attack!") (codes "Lemon"))
          ≫= encrypt) = Done config2
       /\ output config2 !! 2%nat = Some (Some 102).
Proof.
  assert (HM : cstring (codes "Attack!")) by literal.
  assert (Hne : codes "Lemon" <> []) by discriminate.
  assert (HK : Forall (fun k => isalpha k = true) (codes "Lemon")) by literal.
  repeat split; try assumption.
  destruct (encrypt_adds_positions (codes "Attack!") (codes "Lemon") 2 116
              HM Hne HK eq_refl eq_refl)
    as [(config1 & config2 & k & Hgen & Hk & Henc & _ & _ & Hout) _].
  exists config2. rewrite Hgen. split; [exact Henc|].
  rewrite Hout. vm_compute in Hgen. injection Hgen as <-.
  vm_compute in Hk. by injection Hk as <-.
Defined.

(** C8. In both modes and for every key, the text of a run has, at every
    index where the message holds a character that is not a letter, that
    very character; and with a non-empty key the run does produce a text,
    as long as the message. *)
Theorem non_letters_pass_through mode M K i c :
  cstring M -> M !! i = Some c -> isalpha c = false ->
  (forall out, cipher mode M K = Done out -> out !! i = Some c)
  /\ (strlen K <> 0%nat ->
      exists out, cipher mode M K = Done out /\ length out = length M).
Proof.
  intros HM Hi Ha. rewrite cipher_eq by done. split.
  - destruct (_ && _); [done|]. intros out [= <-]. unfold ciphertext.
    rewrite (shifted_lookup _ _ _ _ _ _ Hi). unfold substitute. by rewrite Ha.
  - intros HK. destruct (Nat.eqb_spec (strlen K) 0) as [|_]; [done|].
    eexists. split; [done|]. apply shifted_length.
Qed.

(** The dash of a-b when deciphering with the key xy. *)
Lemma non_letters_pass_through_witness :
  cstring (codes "a-b") /\ codes "a-b" !! 1%nat = Some 45
  /\ isalpha 45 = false
  /\ forall out, cipher Decrypt (codes "a-b") (codes "xy") = Done out ->
       out !! 1%nat = Some 45.
Proof.
  assert (HM : cstring (codes "a-b")) by literal.
  repeat split; try assumption.
  exact (proj1 (non_letters_pass_through Decrypt (codes "a-b") (codes "xy")
                  1 45 HM eq_refl eq_refl)).
Defined.

(** C1. The ASCII message W and the non-empty ASCII key _ : W is
    enciphered to A, and A is deciphered to the character = , not to W. *)
Theorem round_trip_fails_for_underscore_key :
  ascii_text (codes "W") /\ ascii_text (codes "_") /\ codes "_" <> []
  /\ cipher Encrypt (codes "W") (codes "_") = Done (codes "A")
  /\ cipher Decrypt (codes "A") (codes "_") = Done (codes "=")
  /\ codes "=" <> codes "W".
Proof.
  split; [literal|]. split; [literal|]. split; [discriminate|].
  repeat split. discriminate.
Qed.

(** C4. Deciphering the message A with the non-empty key _ : the
    keystream holds _ at the letter, the value that [decrypt] adds to the
    case offset is -4, and the cell of the output holds 61, the
    character = . *)
Theorem decrypt_index_negative_for_underscore_key :
  exists config1 config2,
    codes "A" !! 0%nat = Some 65 /\ isalpha 65 = true /\ codes "_" = [95]
    /\ generate_keystream (build_config 1 (codes "A") (codes "_")) = Done config1
    /\ keystream config1 !! 0%nat = Some (Some 95)
    /\ decrypt config1 = Done config2
    /\ dec_shift 65 95 = -4
    /\ output config2 !! 0%nat = Some (Some (dec_shift 65 95 + case_offset 65))
    /\ dec_shift 65 95 + case_offset 65 = 61.
Proof. do 2 eexists. repeat split. Qed.

(** C9. Deciphering the lowercase b with the key ~ gives the uppercase Y,
    and deciphering the uppercase A with the key _ gives = , which is no
    letter. *)
Theorem decrypt_changes_case_for_tilde_key :
  codes "b" = [98] /\ islower 98 = true
  /\ cipher Decrypt (codes "b") (codes "~") = Done [89]
  /\ islower 89 = false /\ isupper 89 = true
  /\ codes "A" = [65] /\ isupper 65 = true
  /\ cipher Decrypt (codes "A") (codes "_") = Done [61]
  /\ isupper 61 = false /\ isalpha 61 = false.
Proof. repeat split. Qed.

(** C5. An empty key passes [parse_args] and reaches
    [generate_keystream]: the message 123 is printed unchanged with exit
    status 0, and the message A makes the generator divide by zero. *)
Theorem empty_key_is_not_rejected :
  parse_args [codes "./vigenere"; codes "123"; codes "-m"; codes "0";
              codes "-k"; []]
  = inr (build_config 0 (codes "123") [])
  /\ main [codes "./vigenere"; codes "123"; codes "-m"; codes "0";
           codes "-k"; []]
     = Done {| stdout := codes "123" ++ codes newline; stderr := [];
               status := EXIT_SUCCESS |}
  /\ generate_keystream (build_config 0 (codes "A") [])
     = Undefined DivisionByZero
  /\ main [codes "./vigenere"; codes "A"; codes "-m"; codes "0";
           codes "-k"; []]
     = Undefined DivisionByZero.
Proof. repeat split. Qed.

(** What an empty key does to every message: a message without letters
    is printed as it is, any other message stops the run in the
    generator. *)
Lemma empty_key_run mode M :
  cstring M ->
  cipher mode M [] = if has_alpha M then Undefined DivisionByZero else Done M.
Proof.
  intros HM. rewrite cipher_eq by done. cbn [strlen Nat.eqb andb].
  destruct (has_alpha M) eqn:Ha; [done|]. f_equal. unfold ciphertext.
  clear HM. generalize 0%nat. induction M as [|c M IH]; intros j; [done|].
  cbn [has_alpha existsb] in Ha. apply orb_false_iff in Ha as [Hc Ha].
  rewrite shifted_cons, Hc. f_equal. by apply IH.
Qed.

(** How far the defect behind C6 reaches: whenever fewer than three
    arguments follow the program name, or [argv[2]] does not pass for
    -m, as in MESSAGE -k KEY, the run prints the usage line on standard
    error and ends with status 1 without output, so that the default
    mode announced by the help text is never used. *)
Theorem mode_flag_is_required argv :
  (length argv <= 3)%nat \/ matches (arg argv 2) (codes "-m") = false ->
  usage_failure (main argv).
Proof.
  intros H. destruct (parse_args_exits argv) as [type Ht]; [tauto|].
  by apply (main_exit argv type).
Qed.

(** HELLO -k KEY. *)
Lemma mode_flag_is_required_witness :
  matches (arg [codes "./vigenere"; codes "HELLO"; codes "-k"; codes "KEY"] 2)
    (codes "-m") = false
  /\ usage_failure
       (main [codes "./vigenere"; codes "HELLO"; codes "-k"; codes "KEY"]).
Proof.
  split; [reflexivity|].
  apply (mode_flag_is_required
           [codes "./vigenere"; codes "HELLO"; codes "-k"; codes "KEY"]).
  right. reflexivity.
Defined.

(** C6. HELLO -k KEY, without the flag -m: [parse_args] ends the run
    with the usage line, status 1 and nothing on standard output; the
    run is no success, and RIJVS, the text that the default mode
    Encrypt gives for HELLO under KEY, is not printed. *)
Theorem default_mode_is_never_used :
  parse_args [codes "./vigenere"; codes "HELLO"; codes "-k"; codes "KEY"]
  = inl Usage
  /\ main [codes "./vigenere"; codes "HELLO"; codes "-k"; codes "KEY"]
     = Done {| stdout := []; stderr := codes usage_str;
               status := EXIT_FAILURE |}
  /\ cipher Encrypt (codes "HELLO") (codes "KEY") = Done (codes "RIJVS")
  /\ forall text,
       main [codes "./vigenere"; codes "HELLO"; codes "-k"; codes "KEY"]
       <> Done {| stdout := text; stderr := []; status := EXIT_SUCCESS |}.
Proof. repeat split. intros text. discriminate. Qed.

(** C7, as the program has it. When the value of -m is missing or does
    not start with a decimal digit, the run prints the usage line on
    standard error and ends with status 1 without output. *)
Theorem mode_value_without_digit_is_rejected argv :
  (length argv <= 3)%nat \/ isdigit (char_at (arg argv 3) 0) = false ->
  usage_failure (main argv).
Proof.
  intros H. destruct (parse_args_exits argv) as [type Ht]; [tauto|].
  by apply (main_exit argv type).
Qed.

(** HELLO -m x1 -k KEY. *)
Lemma mode_value_without_digit_is_rejected_witness :
  isdigit (char_at (arg [codes "./vigenere"; codes "HELLO"; codes "-m";
                         codes "x1"; codes "-k"; codes "KEY"] 3) 0) = false
  /\ usage_failure
       (main [codes "./vigenere"; codes "HELLO"; codes "-m"; codes "x1";
              codes "-k"; codes "KEY"]).
Proof.
  split; [reflexivity|].
  apply (mode_value_without_digit_is_rejected
           [codes "./vigenere"; codes "HELLO"; codes "-m"; codes "x1";
            codes "-k"; codes "KEY"]).
  right. reflexivity.
Defined.

(** C7 as stated fails: the value 2 of -m is accepted, and the run
    enciphers HELLO to RIJVS with status 0. *)
Lemma mode_value_two_counterexample :
  main [codes "./vigenere"; codes "HELLO"; codes "-m"; codes "2";
        codes "-k"; codes "KEY"]
  = Done {| stdout := codes "RIJVS" ++ codes newline; stderr := [];
            status := EXIT_SUCCESS |}
  /\ ~ usage_failure
        (main [codes "./vigenere"; codes "HELLO"; codes "-m"; codes "2";
               codes "-k"; codes "KEY"]).
Proof.
  split; [reflexivity|].
  intros (p & more & Hp & Hout & _). vm_compute in Hp.
  injection Hp as <-. discriminate Hout.
Qed.

Lemma parity_of_digit d :
  isdigit d = true ->
  mode_of_int (Z.rem d 2) = if Z.even d then Encrypt else Decrypt.
Proof.
  intros Hd.
  assert (H : d = 48 \/ d = 49 \/ d = 50 \/ d = 51 \/ d = 52 \/ d = 53
              \/ d = 54 \/ d = 55 \/ d = 56 \/ d = 57) by (ctype; lia).
  by repeat destruct H as [->|H]; [..|subst d].
Qed.

(** C10, as the program has it. For MESSAGE -m V -k KEY where MESSAGE
    is no prefix of -h (it is not empty, not - and not -h) and V starts
    with a decimal digit, [parse_args] returns, with the mode Encrypt when
    the code of that digit is even and Decrypt when it is odd; the rest
    of V plays no part. *)
Theorem mode_is_parity_of_first_digit prog M d rest K :
  cstring M -> ~ M `prefix_of` codes "-h" -> isdigit d = true ->
  parse_args [prog; M; codes "-m"; d :: rest; codes "-k"; K]
  = inr {| option_ := if Z.even d then Encrypt else Decrypt;
           message := M; output := []; key := K; keystream := [] |}.
Proof.
  intros HM Hh Hd. unfold parse_args.
  cbn [length Nat.ltb Nat.leb andb arg lookup list_lookup default id].
  change (char_at (d :: rest) 0) with d.
  assert (H1 : matches M (codes "-h") = false).
  { destruct (matches M (codes "-h")) eqn:E; [|done].
    apply matches_prefix in E; [done..|literal]. }
  assert (H2 : matches M [0] = false).
  { apply matches_empty_literal; [done|]. intros ->. apply Hh, prefix_nil. }
  rewrite H1, H2, Hd.
  change (matches (codes "-m") (codes "-m")) with true.
  change (matches (codes "-k") (codes "-k")) with true.
  cbv iota. unfold build_config. by rewrite parity_of_digit.
Qed.

(** HELLO -m 37 -k KEY selects Decrypt. *)
Lemma mode_is_parity_of_first_digit_witness :
  cstring (codes "HELLO") /\ ~ codes "HELLO" `prefix_of` codes "-h"
  /\ isdigit 51 = true
  /\ parse_args [codes "./vigenere"; codes "HELLO"; codes "-m"; codes "37";
                 codes "-k"; codes "KEY"]
     = inr {| option_ := Decrypt; message := codes "HELLO"; output := [];
              key := codes "KEY"; keystream := [] |}.
Proof.
  assert (HM : cstring (codes "HELLO")) by literal.
  assert (Hh : ~ codes "HELLO" `prefix_of` codes "-h")
    by (intros [k Hk]; discriminate Hk).
  split; [exact HM|]. split; [exact Hh|]. split; [reflexivity|].
  exact (mode_is_parity_of_first_digit (codes "./vigenere") (codes "HELLO")
           51 (codes "7") (codes "KEY") HM Hh eq_refl).
Defined.

(** C10 as stated fails: with the message - the run ends with the help
    text although the value of -m starts with a digit. *)
Lemma dash_message_counterexample :
  isdigit (char_at (codes "0") 0) = true
  /\ parse_args [codes "./vigenere"; codes "-"; codes "-m"; codes "0";
                 codes "-k"; codes "KEY"]
     = inl Help
  /\ ~ exists config,
        parse_args [codes "./vigenere"; codes "-"; codes "-m"; codes "0";
                    codes "-k"; codes "KEY"]
        = inr config.
Proof. repeat split. intros [config H]. discriminate H. Qed.

(** * Further properties of the program *)

(** ** Faults and outcomes of a run *)

Lemma arg_cstring argv i : Forall cstring argv -> cstring (arg argv i).
Proof.
  intros H. unfold arg. destruct (argv !! i) as [a|] eqn:E; [|constructor].
  rewrite Forall_lookup in H. by apply (H i a).
Qed.

(** X1. The three stages of a run, taken together, never read a cell
    that was not written and never leave a buffer: the only fault of a
    run is the division by zero of [generate_keystream], and it happens
    exactly when the key is empty and the message holds a letter. *)
Theorem run_faults_only_on_empty_key config f :
  cstring (message config) ->
  transform config = Undefined f
  <-> f = DivisionByZero /\ strlen (key config) = 0%nat
      /\ has_alpha (message config) = true.
Proof.
  intros HM. rewrite transform_eq by done.
  destruct (Nat.eqb_spec (strlen (key config)) 0) as [H0|H0];
    destruct (has_alpha (message config)); cbn [andb]; split;
    try (intros [= <-]; done); try (intros (-> & ? & ?); done); try done.
Qed.

(** The message a1 with an empty key. *)
Lemma run_faults_only_on_empty_key_witness :
  cstring (message (build_config 0 (codes "a1") []))
  /\ transform (build_config 0 (codes "a1") []) = Undefined DivisionByZero.
Proof.
  assert (HM : cstring (message (build_config 0 (codes "a1") []))) by literal.
  split; [exact HM|].
  apply (run_faults_only_on_empty_key (build_config 0 (codes "a1") [])
           DivisionByZero HM).
  repeat split.
Defined.

(** X2. Whatever the command line, a run ends in one of three ways: with
    the usage line first on standard error, nothing on standard output
    and status 1; or with nothing on standard error, status 0 and on
    standard output the transformed message followed by a newline, in the
    mode given by the parity of the first character after -m; or in the
    division by zero of an empty key on a message with a letter. *)
Theorem run_outcomes argv :
  Forall cstring argv ->
  match main argv with
  | Done p =>
      usage_failure (Done p)
      \/ (status p = EXIT_SUCCESS /\ stderr p = []
          /\ stdout p
             = ciphertext (mode_of_int (Z.rem (char_at (arg argv 3) 0) 2))
                 (arg argv 1) (arg argv 5) ++ codes newline)
  | Undefined f =>
      f = DivisionByZero /\ strlen (arg argv 5) = 0%nat
      /\ has_alpha (arg argv 1) = true
  end.
Proof.
  intros Hargv. unfold main.
  destruct (parse_args argv) as [type|config] eqn:Hp.
  - left. apply exit_usage_failure.
  - apply parse_args_returns in Hp as (_ & _ & _ & _ & _ & ->).
    rewrite transform_eq by (by apply arg_cstring).
    cbn [build_config key message option_].
    destruct (Nat.eqb_spec (strlen (arg argv 5)) 0) as [H0|H0];
      destruct (has_alpha (arg argv 1)); cbn [andb mbind outcome_bind];
      try done; by right.
Qed.

(** HELLO -m 1 -k KEY. *)
Lemma run_outcomes_witness :
  Forall cstring [codes "./vigenere"; codes "HELLO"; codes "-m"; codes "1";
                  codes "-k"; codes "KEY"]
  /\ match main [codes "./vigenere"; codes "HELLO"; codes "-m"; codes "1";
                 codes "-k"; codes "KEY"] with
     | Done p =>
         usage_failure (Done p)
         \/ (status p = EXIT_SUCCESS /\ stderr p = []
             /\ stdout p
                = ciphertext Decrypt (codes "HELLO") (codes "KEY")
                    ++ codes newline)
     | Undefined f => False
     end.
Proof.
  assert (H : Forall cstring [codes "./vigenere"; codes "HELLO"; codes "-m";
                              codes "1"; codes "-k"; codes "KEY"])
    by (repeat (apply Forall_cons_2; [literal|]); apply Forall_nil_2).
  split; [exact H|].
  pose proof (run_outcomes _ H) as Hr.
  destruct (main _) as [p|f]; [exact Hr | by destruct Hr as (_ & [=] & _)].
Defined.

(** ** The command line, exactly *)

Lemma flag_matches argv i (lit : string) :
  Forall cstring argv -> cstring (codes lit) ->
  matches (arg argv i) (codes lit) = true <-> arg argv i `prefix_of` codes lit.
Proof. intros H Hl. apply matches_prefix; [by apply arg_cstring | done]. Qed.

Lemma parse_args_help argv :
  Forall cstring argv ->
  parse_args argv = inl Help
  <-> (2 <= length argv)%nat /\ arg argv 1 `prefix_of` codes "-h".
Proof.
  intros Hargv. rewrite <- (flag_matches argv 1 "-h") by (done || literal).
  unfold parse_args. split.
  - intros H. repeat case_match; simplify_eq.
    repeat match goal with
           | H : _ && _ = true |- _ => apply andb_true_iff in H as [? ?]
           | H : (_ <? _)%nat = true |- _ => apply Nat.ltb_lt in H
           end.
    split; [lia | done].
  - intros [Hn Hm].
    destruct (Nat.ltb_spec (length argv) 2) as [|_]; [lia|].
    destruct (Nat.ltb_spec 1 (length argv)) as [_|]; [|lia].
    by rewrite Hm.
Qed.

(** X3. [parse_args] returns exactly for the command lines with at
    least five arguments after the program name in which the message is
    no prefix of -h, the arguments at the places of -m and -k are prefixes
    of -m and of -k (the empty string and a lone dash pass for either
    flag), and the value of the mode starts with a decimal digit; the
    configuration then holds the parity of that digit, the message and
    [argv[5]], and arguments after the key are not looked at. *)
Theorem parse_args_accepts_exactly argv config :
  Forall cstring argv ->
  parse_args argv = inr config
  <-> (5 < length argv)%nat
      /\ ~ arg argv 1 `prefix_of` codes "-h"
      /\ arg argv 2 `prefix_of` codes "-m"
      /\ isdigit (char_at (arg argv 3) 0) = true
      /\ arg argv 4 `prefix_of` codes "-k"
      /\ config = build_config (Z.rem (char_at (arg argv 3) 0) 2)
                    (arg argv 1) (arg argv 5).
Proof.
  intros Hargv.
  rewrite <- (flag_matches argv 1 "-h"), <- (flag_matches argv 2 "-m"),
    <- (flag_matches argv 4 "-k") by (done || literal).
  split.
  - intros H. pose proof (parse_args_returns argv config H)
      as (H3 & Hm & Hd & H5 & Hk & ->).
    repeat split; try done.
    intros Hh. unfold parse_args in H.
    destruct (Nat.ltb_spec (length argv) 2) as [|_]; [lia|].
    destruct (Nat.ltb_spec 1 (length argv)) as [_|]; [|lia].
    by rewrite Hh in H.
  - intros (H5 & Hh & Hm & Hd & Hk & ->). unfold parse_args.
    destruct (Nat.ltb_spec (length argv) 2) as [|_]; [lia|].
    destruct (Nat.ltb_spec 1 (length argv)) as [_|]; [|lia].
    destruct (Nat.ltb_spec 3 (length argv)) as [_|]; [|lia].
    destruct (Nat.ltb_spec 5 (length argv)) as [_|]; [|lia].
    apply not_true_is_false in Hh. rewrite Hh, Hm, Hd, Hk. cbn [andb].
    rewrite matches_empty_literal; [done | by apply arg_cstring |].
    intros E. by rewrite E in Hh.
Qed.

(** A lone dash in the place of -m, an empty string in the place of -k,
    and a seventh argument. *)
Lemma parse_args_accepts_exactly_witness :
  Forall cstring [codes "./vigenere"; codes "Hi"; codes "-"; codes "7";
                  []; codes "k"; codes "more"]
  /\ parse_args [codes "./vigenere"; codes "Hi"; codes "-"; codes "7";
                 []; codes "k"; codes "more"]
     = inr (build_config 1 (codes "Hi") (codes "k")).
Proof.
  assert (H : Forall cstring [codes "./vigenere"; codes "Hi"; codes "-";
                              codes "7"; []; codes "k"; codes "more"])
    by (repeat (apply Forall_cons_2; [literal|]); apply Forall_nil_2).
  split; [exact H|].
  apply (parse_args_accepts_exactly _ (build_config 1 (codes "Hi") (codes "k")) H).
  split; [cbn; lia|].
  split; [intros [k Hk]; discriminate Hk|].
  split; [by exists (codes "m")|].
  split; [reflexivity|].
  split; [by exists (codes "-k") | reflexivity].
Defined.

(** X4. The help text is printed exactly when a first argument is given
    and is a prefix of -h, that is for -h, for a lone dash and for an
    empty message, whatever follows; the check of [parse_args] for an
    empty message is never reached with one. *)
Theorem help_exactly_for_prefixes_of_h argv :
  Forall cstring argv ->
  main argv = Done (exit_print_info Help)
  <-> (2 <= length argv)%nat /\ arg argv 1 `prefix_of` codes "-h".
Proof.
  intros Hargv. rewrite <- parse_args_help by done. unfold main. split.
  - destruct (parse_args argv) as [[|]|config]; [done| |].
    + intros H. vm_compute in H. discriminate H.
    + destruct (transform config); cbn [mbind outcome_bind];
        unfold exit_print_info; intros [=].
  - by intros ->.
Qed.

(** An empty message with all flags in place. *)
Lemma help_exactly_for_prefixes_of_h_witness :
  Forall cstring [codes "./vigenere"; []; codes "-m"; codes "0"; codes "-k";
                  codes "KEY"]
  /\ main [codes "./vigenere"; []; codes "-m"; codes "0"; codes "-k";
           codes "KEY"]
     = Done (exit_print_info Help).
Proof.
  assert (H : Forall cstring [codes "./vigenere"; []; codes "-m"; codes "0";
                              codes "-k"; codes "KEY"])
    by (repeat (apply Forall_cons_2; [literal|]); apply Forall_nil_2).
  split; [exact H|].
  apply (help_exactly_for_prefixes_of_h _ H).
  split; [cbn; lia | apply prefix_nil].
Defined.

(** ** Round trips, and the keys that allow them *)

Lemma dec_alpha c k :
  isalpha c = true -> k <= 91 -> isalpha (substitute dec_shift c k) = true.
Proof.
  intros Ha Hk. unfold substitute. rewrite Ha.
  destruct (dec_keeps_case c k Ha Hk) as [Hu Hl].
  unfold isalpha in *. by rewrite Hu, Hl.
Qed.

Lemma enc_dec c k :
  isalpha c = true -> 0 <= k <= 91 ->
  substitute enc_shift (substitute dec_shift c k) k = c.
Proof. intros H%isalpha_cases Hk. chars. Qed.

Lemma toupper_ascii k : 0 < k < 128 -> 0 <= toupper k < 128.
Proof. intros Hk. chars. Qed.

(** A transformation is undone by another one when that holds for every
    letter under every character of the keystream. *)
Lemma shifted_inverse f g K key_len :
  (forall j c, isalpha c = true ->
     let k := toupper (char_at K (j mod key_len)%nat) in
     isalpha (substitute f c k) = true /\ substitute g (substitute f c k) k = c) ->
  forall M j, shifted g K key_len j (shifted f K key_len j M) = M.
Proof.
  intros Hfg. induction M as [|c M IH]; intros j; [done|].
  rewrite shifted_cons. destruct (isalpha c) eqn:Ha.
  - destruct (Hfg j c Ha) as [Hfa Hgf].
    by rewrite shifted_cons, Hfa, Hgf, IH.
  - by rewrite shifted_cons, Ha, IH.
Qed.

Lemma key_char K j :
  cstring K -> K <> [] ->
  exists kc, K !! (j mod strlen K)%nat = Some kc
             /\ char_at K (j mod strlen K)%nat = kc.
Proof.
  intros HK Hne. rewrite (strlen_cstring K HK).
  destruct (lookup_lt_is_Some_2 K (j mod length K)%nat) as [kc Hkc].
  { apply Nat.mod_upper_bound. by destruct K. }
  exists kc. split; [done | by apply char_at_lookup].
Qed.

Lemma ascii_key_char K j :
  ascii_text K -> K <> [] -> 0 <= toupper (char_at K (j mod strlen K)%nat) < 128.
Proof.
  intros HK Hne.
  destruct (key_char K j (ascii_text_cstring K HK) Hne) as (kc & Hkc & ->).
  apply toupper_ascii. unfold ascii_text in HK. rewrite Forall_lookup in HK.
  by apply (HK _ _ Hkc).
Qed.

Lemma alpha_before_shifted_enc K key_len :
  (forall j, 0 <= toupper (char_at K (j mod key_len)%nat)) ->
  forall M j i,
    alpha_before (shifted enc_shift K key_len j M) i = alpha_before M i.
Proof.
  intros HK. induction M as [|c M IH]; intros j [|i]; try done.
  rewrite shifted_cons. destruct (isalpha c) eqn:Ha.
  - by rewrite !alpha_before_S, enc_alpha, Ha, IH.
  - by rewrite !alpha_before_S, Ha, IH.
Qed.

Lemma alpha_before_letters j rest :
  alpha_before (replicate j 65 ++ rest) j = j.
Proof.
  induction j as [|j IH]; [apply alpha_before_0|].
  cbn [replicate app]. rewrite alpha_before_S. cbn. by rewrite IH.
Qed.

(** For a key character that uppercases above 91 there is a letter that
    is enciphered to A, and A is not deciphered to it. *)
Lemma unsafe_key_char k :
  0 < k < 128 -> 91 < toupper k ->
  let c := 65 + (- (65 + toupper k)) mod 26 in
  isalpha c = true /\ c <> 0
  /\ substitute enc_shift c (toupper k) = 65
  /\ substitute dec_shift 65 (toupper k) <> c.
Proof. intros Hk Hu. repeat split; chars. Qed.

Section safe_key.
Variable K : list Z.
Hypothesis K_ascii : ascii_text K.
Hypothesis K_nonempty : K <> [].
Hypothesis K_safe : Forall (fun k => toupper k <= 91) K.

Lemma safe_key_char j : 0 <= toupper (char_at K (j mod strlen K)%nat) <= 91.
Proof.
  pose proof (ascii_key_char K j K_ascii K_nonempty) as Hk.
  destruct (key_char K j (ascii_text_cstring K K_ascii) K_nonempty)
    as (kc & Hkc & E).
  rewrite E in *. rewrite Forall_lookup in K_safe.
  specialize (K_safe _ _ Hkc). cbn beta in K_safe. lia.
Qed.

Lemma safe_key_strlen : strlen K <> 0%nat.
Proof.
  rewrite strlen_cstring by by apply ascii_text_cstring. by destruct K.
Qed.

Lemma safe_key_decrypt_encrypt M :
  cstring M ->
  cipher Encrypt M K = Done (ciphertext Encrypt M K)
  /\ cipher Decrypt (ciphertext Encrypt M K) K = Done M.
Proof.
  intros HM. pose proof safe_key_strlen as Hne.
  rewrite !cipher_eq
    by (done || by apply (shifted_cstring Encrypt K (strlen K) M 0%nat)).
  destruct (Nat.eqb_spec (strlen K) 0) as [|_]; [done|]. cbn [andb].
  split; [done|]. f_equal. apply shifted_inverse. intros j c Ha k.
  pose proof (safe_key_char j).
  split; [apply enc_alpha | apply dec_enc]; done || lia.
Qed.

Lemma safe_key_encrypt_decrypt M :
  cstring M ->
  cipher Decrypt M K = Done (ciphertext Decrypt M K)
  /\ cipher Encrypt (ciphertext Decrypt M K) K = Done M.
Proof.
  intros HM. pose proof safe_key_strlen as Hne.
  rewrite !cipher_eq
    by (done || by apply (shifted_cstring Decrypt K (strlen K) M 0%nat)).
  destruct (Nat.eqb_spec (strlen K) 0) as [|_]; [done|]. cbn [andb].
  split; [done|]. f_equal. apply shifted_inverse. intros j c Ha k.
  pose proof (safe_key_char j).
  split; [apply dec_alpha | apply enc_dec]; done || lia.
Qed.
End safe_key.

(** X5. For a non-empty ASCII key, deciphering gives back every
    enciphered message exactly when every character of the key uppercases
    to a code of at most 91: every key without the ten characters
    backslash, right bracket, caret, underscore, backquote, the braces,
    bar, tilde and DEL, digits and punctuation included. *)
Theorem round_trip_exactly_for_safe_keys K :
  ascii_text K -> K <> [] ->
  (forall M, cstring M ->
     exists C, cipher Encrypt M K = Done C /\ cipher Decrypt C K = Done M)
  <-> Forall (fun k => toupper k <= 91) K.
Proof.
  intros HK Hne. split.
  - intros Hrt. apply Forall_lookup. intros j k Hj.
    destruct (Z.le_gt_cases (toupper k) 91) as [|Hu]; [done|exfalso].
    assert (Hk : 0 < k < 128).
    { unfold ascii_text in HK. rewrite Forall_lookup in HK. by apply (HK j). }
    destruct (unsafe_key_char k Hk ltac:(lia)) as (Ha & Hc0 & Henc & Hdec).
    set (c := 65 + (- (65 + toupper k)) mod 26) in *.
    set (M := replicate j 65 ++ [c]).
    assert (HM : cstring M).
    { apply Forall_app. split; [by apply Forall_replicate|by apply Forall_singleton]. }
    assert (HMj : M !! j = Some c).
    { unfold M. rewrite lookup_app_r by (by rewrite length_replicate).
      by rewrite length_replicate, Nat.sub_diag. }
    pose proof (strlen_cstring K (ascii_text_cstring K HK)) as Hl.
    assert (Hjj : (j mod strlen K)%nat = j).
    { apply Nat.mod_small. rewrite Hl. by eapply lookup_lt_Some. }
    assert (Hlen : strlen K <> 0%nat) by (rewrite Hl; by destruct K).
    destruct (Hrt M HM) as (C & HE & HD).
    rewrite cipher_eq in HE by done.
    destruct (Nat.eqb_spec (strlen K) 0) as [|_]; [done|].
    cbn [andb] in HE. injection HE as <-.
    rewrite cipher_eq in HD
      by (by apply (shifted_cstring Encrypt K (strlen K) M 0%nat)).
    destruct (Nat.eqb_spec (strlen K) 0) as [|_]; [done|].
    cbn [andb] in HD. injection HD as HD.
    assert (HCj : ciphertext Encrypt M K !! j = Some 65).
    { unfold ciphertext. rewrite (shifted_lookup _ _ _ _ _ _ HMj), Ha.
      unfold M at 1. rewrite alpha_before_letters, Hjj.
      rewrite (char_at_lookup _ _ _ Hj). cbn [shift_of]. by rewrite Henc. }
    assert (HDj : ciphertext Decrypt (ciphertext Encrypt M K) K !! j = Some c)
      by (by rewrite HD).
    unfold ciphertext at 1 in HDj.
    rewrite (shifted_lookup _ _ _ _ _ _ HCj) in HDj.
    change (isalpha 65) with true in HDj. cbv iota in HDj.
    unfold ciphertext in HDj.
    rewrite (alpha_before_shifted_enc K (strlen K)) in HDj
      by (intros j'; by apply ascii_key_char).
    unfold M at 1 in HDj.
    rewrite alpha_before_letters, Hjj, (char_at_lookup _ _ _ Hj) in HDj.
    cbn [shift_of] in HDj. by injection HDj.
  - intros Hsafe M HM. exists (ciphertext Encrypt M K).
    by apply safe_key_decrypt_encrypt.
Qed.

(** The key K3y-1! over the message [Hi, you]. *)
Lemma round_trip_exactly_for_safe_keys_witness :
  ascii_text (codes "K3y-1!") /\ codes "K3y-1!" <> []
  /\ exists C, cipher Encrypt (codes "Hi, you") (codes "K3y-1!") = Done C
               /\ cipher Decrypt C (codes "K3y-1!") = Done (codes "Hi, you").
Proof.
  assert (HK : ascii_text (codes "K3y-1!")) by literal.
  assert (Hne : codes "K3y-1!" <> []) by discriminate.
  split; [exact HK|]. split; [exact Hne|].
  apply (proj2 (round_trip_exactly_for_safe_keys (codes "K3y-1!") HK Hne)).
  - literal.
  - literal.
Defined.

(** X6. With such a key the two modes undo each other in the other
    order as well: enciphering a deciphered message gives the message. *)
Theorem encrypt_undoes_decrypt M K :
  cstring M -> ascii_text K -> K <> [] ->
  Forall (fun k => toupper k <= 91) K ->
  exists D, cipher Decrypt M K = Done D /\ cipher Encrypt D K = Done M.
Proof.
  intros HM HK Hne Hsafe. exists (ciphertext Decrypt M K).
  by apply safe_key_encrypt_decrypt.
Qed.

(** The key Lemon over the message [Attack at 9!]. *)
Lemma encrypt_undoes_decrypt_witness :
  cstring (codes "Attack at 9!") /\ ascii_text (codes "Lemon")
  /\ codes "Lemon" <> []
  /\ Forall (fun k => toupper k <= 91) (codes "Lemon")
  /\ exists D, cipher Decrypt (codes "Attack at 9!") (codes "Lemon") = Done D
               /\ cipher Encrypt D (codes "Lemon") = Done (codes "Attack at 9!").
Proof.
  assert (HM : cstring (codes "Attack at 9!")) by literal.
  assert (HK : ascii_text (codes "Lemon")) by literal.
  assert (Hne : codes "Lemon" <> []) by discriminate.
  assert (Hs : Forall (fun k => toupper k <= 91) (codes "Lemon")) by literal.
  split; [exact HM|]. split; [exact HK|]. split; [exact Hne|].
  split; [exact Hs|].
  exact (encrypt_undoes_decrypt _ _ HM HK Hne Hs).
Defined.

(** ** What the key contributes *)

Lemma toupper_char_at K i : toupper (char_at K i) = char_at (toupper <$> K) i.
Proof.
  unfold char_at. rewrite list_lookup_fmap. by destruct (K !! i).
Qed.

Lemma key_letters_ext K1 len1 K2 len2 :
  (forall j, toupper (char_at K1 (j mod len1)%nat)
             = toupper (char_at K2 (j mod len2)%nat)) ->
  forall M j, key_letters K1 len1 j M = key_letters K2 len2 j M.
Proof.
  intros H. induction M as [|c M IH]; intros j; [done|].
  cbn [key_letters]. destruct (isalpha c); by rewrite ?H, IH.
Qed.

Lemma cstring_toupper K : cstring K -> cstring (toupper <$> K).
Proof.
  intros H. apply Forall_fmap. eapply Forall_impl; [exact H|].
  intros c Hc. cbn. chars.
Qed.

(** X7. Only the uppercase of the key counts: two keys with the same
    uppercased characters give the same run on every message, in both
    modes. *)
Theorem key_case_is_ignored mode M K1 K2 :
  cstring M -> cstring K1 -> cstring K2 ->
  toupper <$> K1 = toupper <$> K2 ->
  cipher mode M K1 = cipher mode M K2.
Proof.
  intros HM H1 H2 E. rewrite !cipher_eq by done.
  assert (Hl : strlen K1 = strlen K2).
  { rewrite !strlen_cstring by done.
    by rewrite <- (length_fmap toupper K1), E, length_fmap. }
  rewrite Hl. destruct (_ && _); [done|]. f_equal.
  unfold ciphertext, shifted. rewrite Hl. f_equal.
  apply key_letters_ext. intros j. by rewrite !toupper_char_at, E.
Qed.

(** The keys Lemon and lEMON. *)
Lemma key_case_is_ignored_witness :
  cstring (codes "Attack!") /\ cstring (codes "Lemon")
  /\ cstring (codes "lEMON")
  /\ toupper <$> codes "Lemon" = toupper <$> codes "lEMON"
  /\ cipher Decrypt (codes "Attack!") (codes "Lemon")
     = cipher Decrypt (codes "Attack!") (codes "lEMON").
Proof.
  assert (HM : cstring (codes "Attack!")) by literal.
  assert (H1 : cstring (codes "Lemon")) by literal.
  assert (H2 : cstring (codes "lEMON")) by literal.
  split; [exact HM|]. split; [exact H1|]. split; [exact H2|].
  split; [reflexivity|].
  exact (key_case_is_ignored Decrypt _ _ _ HM H1 H2 eq_refl).
Defined.

Lemma concat_replicate_nil {A} n : concat (replicate n (@nil A)) = [].
Proof. induction n as [|n IH]; [done|]. by cbn. Qed.

Lemma concat_replicate_length (K : list Z) n :
  length (concat (replicate n K)) = (n * length K)%nat.
Proof.
  induction n as [|n IH]; [done|].
  cbn [replicate concat]. rewrite length_app, IH. lia.
Qed.

Lemma concat_replicate_lookup (K : list Z) n : forall i,
  (i < n * length K)%nat ->
  concat (replicate n K) !! i = K !! (i mod length K)%nat.
Proof.
  induction n as [|n IH]; intros i Hi; [lia|].
  cbn [replicate concat].
  destruct (Nat.lt_ge_cases i (length K)) as [Hlt|Hge].
  - by rewrite lookup_app_l, Nat.mod_small.
  - rewrite lookup_app_r, IH by lia.
    replace i with (i - length K + 1 * length K)%nat at 2 by lia.
    by rewrite Nat.Div0.mod_add.
Qed.

Lemma concat_replicate_cstring K n : cstring K -> cstring (concat (replicate n K)).
Proof.
  intros HK. induction n as [|n IH]; [constructor|].
  cbn [replicate concat]. by apply Forall_app.
Qed.

(** X8. A key written several times in a row is the same key: the run
    on a message is the run with the key written once. *)
Theorem repeated_key_is_same_key mode M K n :
  cstring M -> cstring K ->
  cipher mode M (concat (replicate (S n) K)) = cipher mode M K.
Proof.
  intros HM HK. destruct K as [|k0 K'] eqn:EK.
  { by rewrite concat_replicate_nil. }
  rewrite <- EK in *. assert (Hlen : length K <> 0%nat) by (by rewrite EK).
  clear EK k0 K'.
  pose proof (concat_replicate_cstring K (S n) HK) as HR.
  rewrite !cipher_eq by done.
  rewrite !strlen_cstring by done. rewrite concat_replicate_length.
  destruct (Nat.eqb_spec (S n * length K) 0) as [|_]; [lia|].
  destruct (Nat.eqb_spec (length K) 0) as [|_]; [lia|]. cbn [andb].
  f_equal. unfold ciphertext, shifted.
  rewrite !strlen_cstring by done. rewrite concat_replicate_length.
  f_equal. apply key_letters_ext. intros j. f_equal. unfold char_at.
  rewrite concat_replicate_lookup by (apply Nat.mod_upper_bound; lia).
  f_equal. f_equal.
  rewrite (Nat.mul_comm (S n)), Nat.Div0.mod_mul_r.
  rewrite (Nat.mul_comm (length K)), Nat.Div0.mod_add.
  apply Nat.Div0.mod_mod.
Qed.

(** The key ab against the key ababab. *)
Lemma repeated_key_is_same_key_witness :
  cstring (codes "Hi, you") /\ cstring (codes "ab")
  /\ cipher Encrypt (codes "Hi, you") (codes "ababab")
     = cipher Encrypt (codes "Hi, you") (codes "ab").
Proof.
  assert (HM : cstring (codes "Hi, you")) by literal.
  assert (HK : cstring (codes "ab")) by literal.
  split; [exact HM|]. split; [exact HK|].
  exact (repeated_key_is_same_key Encrypt _ _ 2 HM HK).
Defined.

Lemma shifted_by_A mode K key_len :
  (forall j, toupper (char_at K (j mod key_len)%nat) = 65) ->
  forall M j, shifted (shift_of mode) K key_len j M = M.
Proof.
  intros HK. induction M as [|c M IH]; intros j; [done|].
  rewrite shifted_cons, HK, !IH. destruct (isalpha c) eqn:Ha; [|done].
  f_equal. apply isalpha_cases in Ha. destruct mode; chars.
Qed.

(** X9. A key made of the letter A, in either case, changes nothing: in
    both modes the run prints the message itself. *)
Theorem key_of_A_changes_nothing mode M K :
  cstring M -> K <> [] -> Forall (fun k => toupper k = 65) K ->
  cipher mode M K = Done M.
Proof.
  intros HM Hne HA.
  assert (HK : cstring K).
  { eapply Forall_impl; [exact HA|]. by intros k Hk ->. }
  rewrite cipher_eq by done. rewrite (strlen_cstring K HK).
  destruct (Nat.eqb_spec (length K) 0) as [E|_]; [by destruct K|].
  cbn [andb]. f_equal. apply shifted_by_A. intros j.
  destruct (key_char K j HK Hne) as (kc & Hkc & ->).
  rewrite Forall_lookup in HA. by apply (HA _ _ Hkc).
Qed.

(** The key Aa. *)
Lemma key_of_A_changes_nothing_witness :
  cstring (codes "Hi, you") /\ codes "Aa" <> []
  /\ Forall (fun k => toupper k = 65) (codes "Aa")
  /\ cipher Decrypt (codes "Hi, you") (codes "Aa") = Done (codes "Hi, you").
Proof.
  assert (HM : cstring (codes "Hi, you")) by literal.
  assert (Hne : codes "Aa" <> []) by discriminate.
  assert (HA : Forall (fun k => toupper k = 65) (codes "Aa")) by literal.
  split; [exact HM|]. split; [exact Hne|]. split; [exact HA|].
  exact (key_of_A_changes_nothing Decrypt _ _ HM Hne HA).
Defined.

(** ** What enciphering keeps *)

Lemma key_letters_of_ciphertext K key_len :
  (forall j, 0 <= toupper (char_at K (j mod key_len)%nat)) ->
  forall M j,
    key_letters K key_len j (shifted enc_shift K key_len j M)
    = key_letters K key_len j M.
Proof.
  intros HK. induction M as [|c M IH]; intros j; [done|].
  rewrite shifted_cons. destruct (isalpha c) eqn:Ha; cbn [key_letters].
  - by rewrite enc_alpha, Ha, IH.
  - by rewrite Ha, IH.
Qed.

(** X10. Enciphering with a non-empty ASCII key, of letters or not,
    gives a text as long as the message in which every character has the
    class of the message character at its place: uppercase for
    uppercase, lowercase for lowercase, and no letter where there was
    none. *)
Theorem encrypt_keeps_letter_classes M K :
  cstring M -> ascii_text K -> K <> [] ->
  exists out,
    cipher Encrypt M K = Done out /\ length out = length M
    /\ forall i c, M !! i = Some c ->
         exists o, out !! i = Some o
                   /\ isupper o = isupper c /\ islower o = islower c.
Proof.
  intros HM HK Hne.
  pose proof (strlen_cstring K (ascii_text_cstring K HK)) as Hl.
  exists (ciphertext Encrypt M K). rewrite cipher_eq by done.
  destruct (Nat.eqb_spec (strlen K) 0) as [E|_];
    [rewrite Hl in E; by destruct K|].
  split; [done|]. split; [apply shifted_length|].
  intros i c Hi. eexists. unfold ciphertext.
  rewrite (shifted_lookup _ _ _ _ _ _ Hi). split; [done|].
  unfold substitute. destruct (isalpha c) eqn:Ha; [|done].
  apply enc_keeps_case; [done|]. by apply ascii_key_char.
Qed.

(** The key K3y_~ over [Hi, you]. *)
Lemma encrypt_keeps_letter_classes_witness :
  cstring (codes "Hi, you") /\ ascii_text (codes "K3y_~")
  /\ codes "K3y_~" <> []
  /\ exists out,
       cipher Encrypt (codes "Hi, you") (codes "K3y_~") = Done out
       /\ length out = 7%nat.
Proof.
  assert (HM : cstring (codes "Hi, you")) by literal.
  assert (HK : ascii_text (codes "K3y_~")) by literal.
  assert (Hne : codes "K3y_~" <> []) by discriminate.
  split; [exact HM|]. split; [exact HK|]. split; [exact Hne|].
  destruct (encrypt_keeps_letter_classes _ _ HM HK Hne) as (out & H1 & H2 & _).
  exists out. by split.
Defined.

(** X11. The keystream that a later run generates for the enciphered
    text is the keystream that was generated for the message: with a
    non-empty ASCII key the letters of both sit at the same places, so
    deciphering meets every letter with the key character that
    enciphered it. *)
Theorem ciphertext_has_keystream_of_message M K :
  cstring M -> ascii_text K -> K <> [] ->
  exists C config1 config2,
    cipher Encrypt M K = Done C
    /\ generate_keystream (build_config 0 M K) = Done config1
    /\ generate_keystream (build_config 1 C K) = Done config2
    /\ keystream config2 = keystream config1.
Proof.
  intros HM HK Hne.
  pose proof (strlen_cstring K (ascii_text_cstring K HK)) as Hl.
  assert (Hlen : strlen K <> 0%nat) by (rewrite Hl; by destruct K).
  exists (ciphertext Encrypt M K). do 2 eexists.
  rewrite cipher_eq by done.
  rewrite !generate_keystream_eq
    by (done || by apply (shifted_cstring Encrypt K (strlen K) M 0%nat)).
  cbn [build_config key message].
  destruct (Nat.eqb_spec (strlen K) 0) as [|_]; [done|]. cbn [andb].
  split; [done|]. split; [done|]. split; [done|].
  cbn [keystream set_keystream]. f_equal. f_equal.
  apply key_letters_of_ciphertext. intros j. by apply ascii_key_char.
Qed.

(** The key KEY over HELLO WORLD. *)
Lemma ciphertext_has_keystream_of_message_witness :
  cstring (codes "HELLO WORLD") /\ ascii_text (codes "KEY")
  /\ codes "KEY" <> []
  /\ exists C config2,
       cipher Encrypt (codes "HELLO WORLD") (codes "KEY") = Done C
       /\ generate_keystream (build_config 1 C (codes "KEY")) = Done config2
       /\ keystream config2 = (Some <$> codes "KEYKE YKEYK") ++ [None].
Proof.
  assert (HM : cstring (codes "HELLO WORLD")) by literal.
  assert (HK : ascii_text (codes "KEY")) by literal.
  assert (Hne : codes "KEY" <> []) by discriminate.
  split; [exact HM|]. split; [exact HK|]. split; [exact Hne|].
  destruct (ciphertext_has_keystream_of_message _ _ HM HK Hne)
    as (C & config1 & config2 & H1 & H2 & H3 & H4).
  exists C, config2. split; [exact H1|]. split; [exact H3|].
  rewrite H4. vm_compute in H2. by injection H2 as <-.
Defined.

(** X12. Whatever the key holds, a character that a run stores for a
    letter lies between 40 and 122: it fits a [char] and is never the
    terminator, so the printed text is never cut short; any other
    character is stored as it is. *)
Theorem output_characters_fit mode M K :
  cstring M -> strlen K <> 0%nat ->
  exists out,
    cipher mode M K = Done out /\ length out = length M
    /\ forall i c, M !! i = Some c ->
         exists o, out !! i = Some o
                   /\ if isalpha c then 40 <= o <= 122 else o = c.
Proof.
  intros HM Hlen. exists (ciphertext mode M K). rewrite cipher_eq by done.
  destruct (Nat.eqb_spec (strlen K) 0) as [|_]; [done|].
  split; [done|]. split; [apply shifted_length|].
  intros i c Hi. eexists. unfold ciphertext.
  rewrite (shifted_lookup _ _ _ _ _ _ Hi). split; [done|].
  unfold substitute. destruct (isalpha c); [|done].
  apply stored_value_range.
Qed.

(** A key of two characters outside ASCII. *)
Lemma output_characters_fit_witness :
  cstring (codes "Hi!") /\ strlen [200; -7] <> 0%nat
  /\ exists out, cipher Decrypt (codes "Hi!") [200; -7] = Done out
                 /\ length out = 3%nat.
Proof.
  assert (HM : cstring (codes "Hi!")) by literal.
  assert (HK : strlen [200; -7] <> 0%nat) by discriminate.
  split; [exact HM|]. split; [exact HK|].
  destruct (output_characters_fit Decrypt _ _ HM HK) as (out & H1 & H2 & _).
  exists out. by split.
Defined.

(** X13. The flag -k is required: when fewer than five arguments follow
    the program name, or [argv[4]] is no prefix of -k, the run prints the
    usage line on standard error and ends with status 1 without
    output. *)
Theorem key_flag_is_required argv :
  Forall cstring argv ->
  (length argv <= 5)%nat \/ ~ arg argv 4 `prefix_of` codes "-k" ->
  usage_failure (main argv).
Proof.
  intros Hargv H. destruct (parse_args_exits argv) as [type Ht].
  - rewrite <- (flag_matches argv 4 "-k") in H by (done || literal).
    destruct H as [H|H%not_true_is_false]; tauto.
  - by apply (main_exit argv type).
Qed.

(** HELLO -m 0 KEY, without the flag. *)
Lemma key_flag_is_required_witness :
  Forall cstring [codes "./vigenere"; codes "HELLO"; codes "-m"; codes "0";
                  codes "KEY"]
  /\ usage_failure
       (main [codes "./vigenere"; codes "HELLO"; codes "-m"; codes "0";
              codes "KEY"]).
Proof.
  assert (H : Forall cstring [codes "./vigenere"; codes "HELLO"; codes "-m";
                              codes "0"; codes "KEY"])
    by (repeat (apply Forall_cons_2; [literal|]); apply Forall_nil_2).
  split; [exact H|].
  apply (key_flag_is_required _ H). left. cbn. lia.
Defined.

(** ** Two keys *)

Lemma enc_enc_comm c k1 k2 :
  isalpha c = true -> 0 <= k1 -> 0 <= k2 ->
  substitute enc_shift (substitute enc_shift c k1) k2
  = substitute enc_shift (substitute enc_shift c k2) k1.
Proof. intros H%isalpha_cases H1 H2. chars. Qed.

Lemma shifted_enc_comm K1 len1 K2 len2 :
  (forall j, 0 <= toupper (char_at K1 (j mod len1)%nat)) ->
  (forall j, 0 <= toupper (char_at K2 (j mod len2)%nat)) ->
  forall M j,
    shifted enc_shift K2 len2 j (shifted enc_shift K1 len1 j M)
    = shifted enc_shift K1 len1 j (shifted enc_shift K2 len2 j M).
Proof.
  intros H1 H2. induction M as [|c M IH]; intros j; [done|].
  rewrite !(shifted_cons _ _ _ _ c). destruct (isalpha c) eqn:Ha.
  - by rewrite !shifted_cons, !enc_alpha, enc_enc_comm, IH.
  - by rewrite !shifted_cons, Ha, IH.
Qed.

(** X14. Enciphering under two non-empty ASCII keys one after the
    other gives the same text in either order, whatever the lengths of
    the keys. *)
Theorem encrypting_twice_commutes M K1 K2 :
  cstring M -> ascii_text K1 -> K1 <> [] -> ascii_text K2 -> K2 <> [] ->
  exists C1 C2 C,
    cipher Encrypt M K1 = Done C1 /\ cipher Encrypt C1 K2 = Done C
    /\ cipher Encrypt M K2 = Done C2 /\ cipher Encrypt C2 K1 = Done C.
Proof.
  intros HM HK1 Hne1 HK2 Hne2.
  assert (Hl : forall K, ascii_text K -> K <> [] -> strlen K <> 0%nat).
  { intros K HK Hne. rewrite strlen_cstring by by apply ascii_text_cstring.
    by destruct K. }
  pose proof (Hl K1 HK1 Hne1) as Hl1. pose proof (Hl K2 HK2 Hne2) as Hl2.
  exists (ciphertext Encrypt M K1), (ciphertext Encrypt M K2),
    (ciphertext Encrypt (ciphertext Encrypt M K1) K2).
  rewrite !cipher_eq
    by (done || by apply (shifted_cstring Encrypt _ _ M 0%nat)).
  destruct (Nat.eqb_spec (strlen K1) 0) as [|_]; [done|].
  destruct (Nat.eqb_spec (strlen K2) 0) as [|_]; [done|]. cbn [andb].
  split; [done|]. split; [done|]. split; [done|]. f_equal.
  symmetry. apply shifted_enc_comm; intros j; by apply ascii_key_char.
Qed.

(** The keys Lemon and K3y over [Attack!]. *)
Lemma encrypting_twice_commutes_witness :
  cstring (codes "Attack!") /\ ascii_text (codes "Lemon")
  /\ codes "Lemon" <> [] /\ ascii_text (codes "K3y") /\ codes "K3y" <> []
  /\ exists C1 C2 C,
       cipher Encrypt (codes "Attack!") (codes "Lemon") = Done C1
       /\ cipher Encrypt C1 (codes "K3y") = Done C
       /\ cipher Encrypt (codes "Attack!") (codes "K3y") = Done C2
       /\ cipher Encrypt C2 (codes "Lemon") = Done C.
Proof.
  assert (HM : cstring (codes "Attack!")) by literal.
  assert (H1 : ascii_text (codes "Lemon")) by literal.
  assert (N1 : codes "Lemon" <> []) by discriminate.
  assert (H2 : ascii_text (codes "K3y")) by literal.
  assert (N2 : codes "K3y" <> []) by discriminate.
  split; [exact HM|]. split; [exact H1|]. split; [exact N1|].
  split; [exact H2|]. split; [exact N2|].
  exact (encrypting_twice_commutes _ _ _ HM H1 N1 H2 N2).
Defined.
